(** * massif-combine: the snapshot parser, the combiner and the serializer

    A shallow embedding of [src/massif-combine.cpp] (class [MassifFile]) and
    the properties of its natural-language specification.

    - [std::string] is [string]; a file is its bytes, read with [std::getline]
      and written by [std::ostream_iterator<std::string>(stream, "\n")].
    - The three regular expressions are embedded as the string tests they
      denote under [std::regex_search].
    - [int] is a 32-bit signed integer: [std::stoi] raises [std::out_of_range]
      above [INT_MAX], and nothing in the program catches it.
    - [std::sort] is any function that meets the contract of the standard
      (a permutation, ordered by the comparator); insertion sort is the
      executable instance.
    - The file system is a map from paths to bytes; the destination stream
      of [write] can fail at opening, while writing, or at closing. *)

From Stdlib Require Import List ZArith Lia Bool Ascii String Permutation Sorted.
From Stdlib Require DecimalString DecimalFacts DecimalNat.
Import ListNotations.

Local Open Scope list_scope.

(* ================================================================== *)
(** ** Strings and the three regular expressions *)

Definition StringList := list string.

(** The line terminator of [std::getline] and of the output iterator. *)
Definition newline : ascii := "010"%char.

(** [\d] in the "C" locale. *)
Definition is_digit (c : ascii) : bool :=
  match c with
  | "0"%char | "1"%char | "2"%char | "3"%char | "4"%char
  | "5"%char | "6"%char | "7"%char | "8"%char | "9"%char => true
  | _ => false
  end.

(** The longest run of digits at the start of a string: what a greedy [\d+]
    consumes. *)
Fixpoint leading_digits (s : string) : string :=
  match s with
  | String c s' => if is_digit c then String c (leading_digits s') else EmptyString
  | EmptyString => EmptyString
  end.

(** The remainder of [s] after the literal [lit], when [s] starts with it. *)
Fixpoint strip_literal (lit s : string) : option string :=
  match lit with
  | EmptyString => Some s
  | String a lit' =>
      match s with
      | String b s' => if Ascii.eqb a b then strip_literal lit' s' else None
      | EmptyString => None
      end
  end.

(** A match of [lit\d+] anchored at the start of [s]: the digits matched. *)
Definition literal_digits_here (lit s : string) : option string :=
  match strip_literal lit s with
  | Some r =>
      match leading_digits r with
      | EmptyString => None
      | ds => Some ds
      end
  | None => None
  end.

(** [std::regex_search] with the pattern [lit(\d+)]: the leftmost position
    at which the pattern matches, and the digits captured there. *)
Fixpoint search_literal_digits (lit s : string) : option string :=
  match literal_digits_here lit s with
  | Some ds => Some ds
  | None =>
      match s with
      | String _ s' => search_literal_digits lit s'
      | EmptyString => None
      end
  end.

(** std::regex("^(desc|cmd|time_unit):") *)
Definition keyword_regex (str : string) : bool :=
  String.prefix "desc:" str || String.prefix "cmd:" str
  || String.prefix "time_unit:" str.

(** "#-----------" *)
Definition snapshot_mark : string := "#-----------"%string.

(** std::regex("snapshot=\\d+") *)
Definition snapshot_regex (str : string) : bool :=
  match search_literal_digits "snapshot=" str with
  | Some _ => true
  | None => false
  end.

(** std::regex("time=(\\d+)"): [match[1]] when the search succeeds. *)
Definition snapshot_time_regex (str : string) : option string :=
  search_literal_digits "time=" str.

(** ** [std::stoi] *)

Definition INT_MAX : Z := 2147483647.

Definition digit_value (c : ascii) : Z := Z.of_nat (nat_of_ascii c) - 48.

(** The number a string of decimal digits denotes, most significant first. *)
Fixpoint decimal_value (acc : Z) (s : string) : Z :=
  match s with
  | String c s' => decimal_value (10 * acc + digit_value c) s'
  | EmptyString => acc
  end.

(** [std::stoi] on a non-empty string of digits: the value, or [None] when
    it raises [std::out_of_range] because the value does not fit an [int]. *)
Definition stoi (digits : string) : option Z :=
  let v := decimal_value 0 digits in
  if (v <=? INT_MAX)%Z then Some v else None.

(* ================================================================== *)
(** ** The document model *)

Record Snapshot : Type := mkSnapshot {
  time : Z;
  contents : StringList
}.

Record MassifFile : Type := mkMassifFile {
  headers : StringList;
  snapshots : list Snapshot
}.

(** [MassifFile()] *)
Definition empty_file : MassifFile := mkMassifFile [] [].

(** How a member function ends: it returns its [int], or [std::stoi]'s
    exception leaves it. *)
Inductive Outcome : Type :=
| Returned (code : Z)
| Thrown.

(* ================================================================== *)
(** ** [MassifFile::appendFile] *)

Inductive LastLine : Type :=
| HEADER
| SNAPSHOT_MARK
| SNAPSHOT_NAME
| SNAPSHOT_CONTENT
| NONE.

Definition LastLine_eqb (a b : LastLine) : bool :=
  match a, b with
  | HEADER, HEADER | SNAPSHOT_MARK, SNAPSHOT_MARK
  | SNAPSHOT_NAME, SNAPSHOT_NAME | SNAPSHOT_CONTENT, SNAPSHOT_CONTENT
  | NONE, NONE => true
  | _, _ => false
  end.

(** The variables the reading loop updates: [status], the pending
    [snapshot] pointer ([None] is [nullptr]) and the object itself. *)
Record Loop : Type := mkLoop {
  status : LastLine;
  snapshot : option Snapshot;
  this : MassifFile
}.

(** One iteration either goes on to the next line or leaves the function. *)
Inductive Step : Type :=
| Continue (l : Loop)
| Exit (o : Outcome) (m : MassifFile).

(** [this->headers.push_back(str)] *)
Definition push_header (str : string) (m : MassifFile) : MassifFile :=
  mkMassifFile (headers m ++ [str]) (snapshots m).

(** [if (snapshot != nullptr && snapshot->contents.size() > 0)
       this->snapshots.push_back(snapshot);] *)
Definition push_pending (p : option Snapshot) (m : MassifFile) : MassifFile :=
  match p with
  | Some s =>
      match contents s with
      | [] => m
      | _ :: _ => mkMassifFile (headers m) (snapshots m ++ [s])
      end
  | None => m
  end.

(** The body of [while (std::getline(file, str))], test by test. *)
Definition loop_body (ignore_header : bool) (str : string) (l : Loop) : Step :=
  if keyword_regex str then
    Continue (mkLoop HEADER (snapshot l)
                (if ignore_header then this l else push_header str (this l)))
  else if (LastLine_eqb (status l) HEADER
           || LastLine_eqb (status l) SNAPSHOT_CONTENT)
          && String.eqb str snapshot_mark then
    Continue (mkLoop SNAPSHOT_MARK None (push_pending (snapshot l) (this l)))
  else if LastLine_eqb (status l) SNAPSHOT_MARK && snapshot_regex str then
    Continue (mkLoop SNAPSHOT_NAME (snapshot l) (this l))
  else if LastLine_eqb (status l) SNAPSHOT_NAME
          && String.eqb str snapshot_mark then
    match snapshot l with
    | None => Continue (mkLoop SNAPSHOT_CONTENT (Some (mkSnapshot 0 [])) (this l))
    | Some _ => Exit (Returned 2) (this l)
    end
  else if LastLine_eqb (status l) SNAPSHOT_CONTENT then
    match snapshot l with
    | None => Exit (Returned 2) (this l)
    | Some s =>
        match snapshot_time_regex str with
        | Some digits =>
            match stoi digits with
            | Some t =>
                Continue (mkLoop SNAPSHOT_CONTENT
                            (Some (mkSnapshot t (contents s ++ [str]))) (this l))
            | None => Exit Thrown (this l)
            end
        | None =>
            Continue (mkLoop SNAPSHOT_CONTENT
                        (Some (mkSnapshot (time s) (contents s ++ [str]))) (this l))
        end
    end
  else Continue l.

(** The loop over the lines [std::getline] delivers. *)
Fixpoint read_loop (ignore_header : bool) (lines : list string) (l : Loop) : Step :=
  match lines with
  | [] => Continue l
  | str :: rest =>
      match loop_body ignore_header str l with
      | Continue l' => read_loop ignore_header rest l'
      | Exit o m => Exit o m
      end
  end.

(** [appendFile] once the file is open: the loop from [status = NONE] and
    [snapshot = nullptr], then the commit after the loop and [return 0]. *)
Definition appendLines (ignore_header : bool) (lines : list string)
    (m : MassifFile) : Outcome * MassifFile :=
  match read_loop ignore_header lines (mkLoop NONE None m) with
  | Continue l => (Returned 0, push_pending (snapshot l) (this l))
  | Exit o m' => (o, m')
  end.

(** [std::getline] until it fails: the lines of a file.  A last line with
    no terminator is delivered; nothing follows a final terminator. *)
Fixpoint getlines (bytes : string) : list string :=
  match bytes with
  | EmptyString => []
  | String c rest =>
      if Ascii.eqb c newline then EmptyString :: getlines rest
      else
        match getlines rest with
        | [] => [String c EmptyString]
        | l :: ls => String c l :: ls
        end
  end.

(** The files the program can see: the bytes of each path that opens. *)
Definition FileSystem := string -> option string.

Definition appendFile (fs : FileSystem) (path : string) (ignore_header : bool)
    (m : MassifFile) : Outcome * MassifFile :=
  match fs path with
  | None => (Returned 1, m)
  | Some bytes => appendLines ignore_header (getlines bytes) m
  end.

(* ================================================================== *)
(** ** [MassifFile::add] *)

(** [add(const std::string path)]: [appendFile(path, headers.size() > 0)]. *)
Definition add (fs : FileSystem) (path : string) (m : MassifFile)
  : Outcome * MassifFile :=
  appendFile fs path (negb (Nat.eqb (List.length (headers m)) 0)) m.

(** [add(It first, It last)]: [ret] is overwritten by every non-zero [r];
    an exception leaves the loop. *)
Fixpoint add_loop (fs : FileSystem) (paths : list string) (ret : Z)
    (m : MassifFile) : Outcome * MassifFile :=
  match paths with
  | [] => (Returned ret, m)
  | path :: rest =>
      match add fs path m with
      | (Returned r, m') =>
          add_loop fs rest (if (r =? 0)%Z then ret else r) m'
      | (Thrown, m') => (Thrown, m')
      end
  end.

Definition add_range (fs : FileSystem) (paths : list string) (m : MassifFile)
  : Outcome * MassifFile :=
  add_loop fs paths 0 m.

(* ================================================================== *)
(** ** [std::sort] *)

(** [!(b->time < a->time)]: what the comparator of [write] leaves between an
    element and every later one once the range is sorted. *)
Definition time_le (a b : Snapshot) : Prop := (time a <= time b)%Z.

(** The contract of [std::sort] with the comparator [a->time < b->time]: the
    range is rearranged, and afterwards no element compares less than one
    before it.  The order of elements with equal [time] is left open. *)
Class StdSort : Type := {
  std_sort : list Snapshot -> list Snapshot;
  std_sort_permutation : forall l, Permutation l (std_sort l);
  std_sort_sorted : forall l, StronglySorted time_le (std_sort l)
}.

(** An executable instance: insertion sort. *)
Fixpoint insert_by_time (s : Snapshot) (l : list Snapshot) : list Snapshot :=
  match l with
  | [] => [s]
  | x :: r =>
      if (time s <=? time x)%Z then s :: x :: r else x :: insert_by_time s r
  end.

Fixpoint insertion_sort (l : list Snapshot) : list Snapshot :=
  match l with
  | [] => []
  | s :: r => insert_by_time s (insertion_sort r)
  end.

(* ================================================================== *)
(** ** [MassifFile::write] *)

(** What the destination does to this call of [write]: whether
    [std::ofstream file(path)] opens, how many lines the stream accepts
    before it goes bad ([None]: as many as are written), and whether
    [file.close()] succeeds. *)
Record Sink : Type := mkSink {
  opens : bool;
  room : option nat;
  closes : bool
}.

(** A sink on which nothing fails. *)
Definition sound_sink : Sink := mkSink true None true.

(** The state of the [std::ofstream]: [!file] is [negb good]. *)
Record ofstream : Type := mkStream {
  good : bool;
  bytes : string;
  left : option nat
}.

(** [*output_iterator++ = str]: the string and the delimiter "\n"; a stream
    that is not good ignores the write. *)
Definition put_line (f : ofstream) (str : string) : ofstream :=
  if good f then
    match left f with
    | Some O => mkStream false (bytes f) (Some O)
    | Some (S k) =>
        mkStream true (bytes f ++ str ++ String newline EmptyString) (Some k)
    | None => mkStream true (bytes f ++ str ++ String newline EmptyString) None
    end
  else f.

(** [writeList]: [std::copy] of the list to the output iterator. *)
Definition writeList (stream : ofstream) (list : StringList) : ofstream :=
  fold_left put_line list stream.

(** [std::to_string(index)] for an index that is not negative. *)
Definition to_string (index : nat) : string :=
  DecimalString.NilEmpty.string_of_uint (Nat.to_uint index).

(** The [titles] of [writeSnapshot]. *)
Definition titles (index : nat) : StringList :=
  [snapshot_mark; ("snapshot=" ++ to_string index)%string; snapshot_mark].

Definition writeSnapshot (stream : ofstream) (index : nat) (s : Snapshot)
  : ofstream :=
  writeList (writeList stream (titles index)) (contents s).

(** [for (int i = ...; i < snapshots.size(); i++)]: the stream after the
    loop, and whether the loop ran to its end ([false]: [return 2]).  The
    counter is a [nat]: it agrees with the [int] of the source on every
    vector of at most [INT_MAX] elements. *)
Fixpoint write_loop (stream : ofstream) (i : nat) (snaps : list Snapshot)
  : ofstream * bool :=
  match snaps with
  | [] => (stream, true)
  | s :: rest =>
      let stream' := writeSnapshot stream i s in
      if good stream' then write_loop stream' (S i) rest else (stream', false)
  end.

(** [fs] with the bytes of [path] replaced: what a later open of [path],
    under this spelling, reads.  Other names of the same file are not
    followed, so nothing is stated here of the paths other than [path]. *)
Definition store (fs : FileSystem) (path : string) (content : string)
  : FileSystem :=
  fun p => if String.eqb p path then Some content else fs p.

(** [write]: the returned [int], the object (its snapshots are sorted in
    place) and the file system afterwards. *)
Definition write {S : StdSort} (sink : Sink) (path : string) (m : MassifFile)
    (fs : FileSystem) : Z * MassifFile * FileSystem :=
  if Nat.leb (List.length (headers m)) 0
     && Nat.leb (List.length (snapshots m)) 0 then
    ((-1)%Z, m, fs)
  else
    let m' := mkMassifFile (headers m) (std_sort (snapshots m)) in
    if negb (opens sink) then (1%Z, m', fs)
    else
      let file := mkStream true EmptyString (room sink) in
      let file := writeList file (headers m') in
      if negb (good file) then (2%Z, m', store fs path (bytes file))
      else
        match write_loop file 0 (snapshots m') with
        | (file, false) => (2%Z, m', store fs path (bytes file))
        | (file, true) =>
            if closes sink then (0%Z, m', store fs path (bytes file))
            else (3%Z, m', store fs path (bytes file))
        end.

(* ================================================================== *)
(** ** The words of the specification *)

(** The text of a file whose lines are [l], each with its terminator. *)
Fixpoint unlines (l : list string) : string :=
  match l with
  | [] => EmptyString
  | s :: r => (s ++ String newline (unlines r))%string
  end.

(** The output format: one block per snapshot, the block at position [i]
    carrying the index line [snapshot=i]. *)
Definition index_line (i : nat) : string := ("snapshot=" ++ to_string i)%string.

Definition block (i : nat) (s : Snapshot) : list string :=
  snapshot_mark :: index_line i :: snapshot_mark :: contents s.

Fixpoint blocks_from (i : nat) (snaps : list Snapshot) : list (list string) :=
  match snaps with
  | [] => []
  | s :: rest => block i s :: blocks_from (S i) rest
  end.

(** The lines of a serialized document: the headers, then the blocks of the
    snapshots in the order given, numbered from 0. *)
Definition output_lines (hs : StringList) (snaps : list Snapshot) : list string :=
  hs ++ List.concat (blocks_from 0 snaps).

(** The index line of a block of the output format: its second line. *)
Definition index_line_of (b : list string) : string := nth 1 b EmptyString.

(** The integer a body line carries for the pattern [time=(\d+)]. *)
Definition time_capture (str : string) : option Z :=
  match snapshot_time_regex str with
  | Some digits => Some (decimal_value 0 digits)
  | None => None
  end.

(** "First match wins": the capture of the first body line that matches. *)
Fixpoint first_time_capture (body : list string) : option Z :=
  match body with
  | [] => None
  | str :: rest =>
      match time_capture str with
      | Some t => Some t
      | None => first_time_capture rest
      end
  end.

(** A document "with zero headers and zero snapshots". *)
Definition is_empty (m : MassifFile) : Prop :=
  headers m = [] /\ snapshots m = [].

(** "More than one line matching": the number of body lines that match
    [time=(\d+)]. *)
Definition matching_lines (body : list string) : nat :=
  List.length (filter (fun str => match time_capture str with
                                  | Some _ => true
                                  | None => false
                                  end) body).

(** The capture of the last body line that matches. *)
Fixpoint last_time_capture (body : list string) : option Z :=
  match body with
  | [] => None
  | str :: rest =>
      match last_time_capture rest with
      | Some t => Some t
      | None => time_capture str
      end
  end.

(** The key a body determines when the last matching line wins, 0 when no
    line matches. *)
Definition key_of_body (body : list string) : Z :=
  match last_time_capture body with
  | Some t => t
  | None => 0%Z
  end.

(** The snapshots a parse added to the document [m]. *)
Definition added_by (m m' : MassifFile) (new : list Snapshot) : Prop :=
  snapshots m' = snapshots m ++ new.

(** The key rule as the specification words it: in every snapshot a parse
    adds whose body has more than one matching line, the key is the capture
    of the first matching line. *)
Definition first_match_wins : Prop :=
  forall (ih : bool) (lines : list string) (m : MassifFile)
         (new : list Snapshot) (s : Snapshot),
    added_by m (snd (appendLines ih lines m)) new ->
    In s new ->
    2 <= matching_lines (contents s) ->
    first_time_capture (contents s) = Some (time s).

(** ** Sample data *)

(** A file system with no file. *)
Definition no_files : FileSystem := fun _ => None.

(** Two snapshots out of order, with index lines of their sources in the
    bodies. *)
Definition sample_document : MassifFile :=
  mkMassifFile ["desc: x"%string]
    [mkSnapshot 100 ["snapshot=7"; "time=100"; "mem_heap_B=10"]%string;
     mkSnapshot 50 ["snapshot=3"; "time=50"; "mem_heap_B=5"]%string].

Definition sample_sorted : MassifFile :=
  mkMassifFile ["desc: x"%string]
    [mkSnapshot 50 ["snapshot=3"; "time=50"; "mem_heap_B=5"]%string;
     mkSnapshot 100 ["snapshot=7"; "time=100"; "mem_heap_B=10"]%string].

(** The sources of the end-to-end example.  [file_A]: the header [desc: x]
    and one snapshot block; [file_B]: no header, one snapshot block;
    [file_B_headed]: [file_B] after a header line. *)
Definition file_A : string :=
  unlines ["desc: x"; snapshot_mark; "snapshot=0"; snapshot_mark;
           "time=100"; "mem_heap_B=10"]%string.

Definition file_B : string :=
  unlines [snapshot_mark; "snapshot=0"; snapshot_mark;
           "time=50"; "mem_heap_B=5"]%string.

Definition file_B_headed : string :=
  unlines ["cmd: y"; snapshot_mark; "snapshot=0"; snapshot_mark;
           "time=50"; "mem_heap_B=5"]%string.

Definition snapshot_A : Snapshot :=
  mkSnapshot 100 ["time=100"; "mem_heap_B=10"]%string.

Definition snapshot_B : Snapshot :=
  mkSnapshot 50 ["time=50"; "mem_heap_B=5"]%string.

Definition files_A_B : FileSystem :=
  store (store no_files "A" file_A) "B" file_B.

Definition files_A_B_headed : FileSystem :=
  store (store no_files "A" file_A) "B" file_B_headed.

(** A source whose [time=] value does not fit an [int] (massif counts
    instructions by default), before a well-formed one. *)
Definition file_long_run : string :=
  unlines ["desc: x"; snapshot_mark; "snapshot=0"; snapshot_mark;
           "time=3000000000"; "mem_heap_B=10"]%string.

Definition files_long_run : FileSystem :=
  store (store no_files "A" file_long_run) "B" file_B_headed.

(** The multiset of [(chronological_key, body)] pairs of a document, as a
    list up to permutation. *)
Definition key_body_pairs (m : MassifFile) : list (Z * list string) :=
  map (fun s => (time s, contents s)) (snapshots m).

(** Best-effort aggregation.  The sources [paths] are attempted one after
    the other, each on the document the one before left and each returning a
    code: the codes in order, and the document at the end. *)
Inductive attempted (fs : FileSystem)
  : list string -> MassifFile -> list Z -> MassifFile -> Prop :=
| attempted_nil (m : MassifFile) : attempted fs [] m [] m
| attempted_cons (path : string) (rest : list string) (m m1 m' : MassifFile)
    (r : Z) (codes : list Z) :
    add fs path m = (Returned r, m1) ->
    attempted fs rest m1 codes m' ->
    attempted fs (path :: rest) m (r :: codes) m'.

(** The last code that is not 0, and 0 when there is none. *)
Fixpoint last_error (codes : list Z) : Z :=
  match codes with
  | [] => 0%Z
  | r :: rest =>
      if (last_error rest =? 0)%Z then r else last_error rest
  end.

(* ================================================================== *)
(** ** Invariants of the parser *)

Fixpoint has_newline (s : string) : bool :=
  match s with
  | String c s' => Ascii.eqb c newline || has_newline s'
  | EmptyString => false
  end.

(** A line as [std::getline] delivers it. *)
Definition no_newline (s : string) : Prop := has_newline s = false.

(** A string of decimal digits. *)
Definition all_digits (s : string) : Prop :=
  forall c, In c (list_ascii_of_string s) -> is_digit c = true.

(** The document once the pending snapshot is committed. *)
Definition finish (l : Loop) : MassifFile :=
  push_pending (snapshot l) (this l).

(** The pending pointer is null outside a snapshot and set inside one. *)
Definition coherent (l : Loop) : Prop :=
  match status l with
  | SNAPSHOT_CONTENT => snapshot l <> None
  | HEADER => True
  | SNAPSHOT_MARK | SNAPSHOT_NAME | NONE => snapshot l = None
  end.

(** The integer of a [time=] line fits an [int]. *)
Definition fits_int (str : string) : Prop :=
  match time_capture str with
  | Some t => (t <= INT_MAX)%Z
  | None => True
  end.

Section Parsed.

(** What is known of every line read (the lines of a file hold no
    terminator; of arbitrary lines nothing is known). *)
Variable P : string -> Prop.

(** A line the loop stored as a header. *)
Definition header_ok (h : string) : Prop :=
  P h /\ keyword_regex h = true.

(** A line the loop stored in a body. *)
Definition body_line_ok (b : string) : Prop :=
  P b /\ keyword_regex b = false /\ b <> snapshot_mark /\ fits_int b.

(** The pending snapshot. *)
Definition pending_ok (p : option Snapshot) : Prop :=
  match p with
  | Some s =>
      Forall body_line_ok (contents s) /\ time s = key_of_body (contents s)
  | None => True
  end.

(** A snapshot the loop committed. *)
Definition snapshot_ok (s : Snapshot) : Prop :=
  contents s <> [] /\ Forall body_line_ok (contents s)
  /\ time s = key_of_body (contents s).

(** What a parse with the flag [ih] has added to [m] when the object is
    [m']: headers [newh] and snapshots [new]. *)
Definition grown (ih : bool) (m m' : MassifFile)
    (newh : list string) (new : list Snapshot) : Prop :=
  headers m' = headers m ++ newh /\ added_by m m' new
  /\ Forall header_ok newh /\ Forall snapshot_ok new
  /\ (ih = true -> newh = []).

(** The invariant of the reading loop of a parse of [m]. *)
Definition loop_inv (ih : bool) (m : MassifFile) (l : Loop) : Prop :=
  exists newh new,
    grown ih m (this l) newh new
    /\ pending_ok (snapshot l)
    /\ (ih = false ->
        newh <> [] \/ (status l = NONE /\ snapshot l = None /\ new = [])).

(** A document built by parses only. *)
Definition parsed_file (m : MassifFile) : Prop :=
  Forall header_ok (headers m) /\ Forall snapshot_ok (snapshots m)
  /\ (snapshots m <> [] -> headers m <> []).

End Parsed.

(* ================================================================== *)
(** ** More words for the properties of the parser and the serializer *)

(** The document [m] followed by what the document [d] holds. *)
Definition merge (m d : MassifFile) : MassifFile :=
  mkMassifFile (headers m ++ headers d) (snapshots m ++ snapshots d).

(** A file that is empty or ends with the line terminator. *)
Fixpoint terminated (b : string) : bool :=
  match b with
  | EmptyString => true
  | String c EmptyString => Ascii.eqb c newline
  | String _ rest => terminated rest
  end.

(** The last character of a string is [c]. *)
Fixpoint ends_with (c : ascii) (s : string) : bool :=
  match s with
  | EmptyString => false
  | String x EmptyString => Ascii.eqb x c
  | String _ rest => ends_with c rest
  end.

(* ================================================================== *)
(** ** The command line: [fileExists], [deleteFiles], [listFile],
       [InputArgs] and [main]

    What the console shows ([usage], the verbose reports, the warnings) is
    not part of the model.  [stat] succeeds on the paths of the file
    system.  [remove] fails on a path that is absent and on a path the
    system refuses to remove (the parameter [locked]); removing a path
    takes away every name that resolves through its directory entry (the
    parameter [kills]: other spellings of the path, links to it).  [popen]
    and [getopt] are taken as what they deliver. *)

(** [stat(file.c_str(), &buf) == 0] *)
Definition fileExists (fs : FileSystem) (file : string) : bool :=
  match fs file with
  | Some _ => true
  | None => false
  end.

(** [fs] once the directory entry of [path] is gone: no name that resolved
    through it opens any more ([kills path p]). *)
Definition erase (kills : string -> string -> bool) (fs : FileSystem)
    (path : string) : FileSystem :=
  fun p => if kills path p then None else fs p.

(** [remove(file.c_str())]: 0, or -1 when nothing is removed. *)
Definition remove (kills : string -> string -> bool) (locked : string -> bool)
    (fs : FileSystem) (file : string) : Z * FileSystem :=
  match fs file with
  | Some _ => if locked file then ((-1)%Z, fs) else (0%Z, erase kills fs file)
  | None => ((-1)%Z, fs)
  end.

(** The loop of [deleteFiles]: [ret] becomes [false] at every [remove]
    that fails, and the loop goes on. *)
Fixpoint deleteFiles_loop (kills : string -> string -> bool)
    (locked : string -> bool) (files : list string)
    (ret : bool) (fs : FileSystem) : bool * FileSystem :=
  match files with
  | [] => (ret, fs)
  | file :: rest =>
      let '(r, fs') := remove kills locked fs file in
      deleteFiles_loop kills locked rest (if (r <? 0)%Z then false else ret) fs'
  end.

Definition deleteFiles (kills : string -> string -> bool)
    (locked : string -> bool) (fs : FileSystem)
    (files : list string) : bool * FileSystem :=
  deleteFiles_loop kills locked files true fs.

(** [PATH_MAX] of <limits.h> on Linux. *)
Definition PATH_MAX : nat := 4096.

Definition carriage_return : ascii := "013"%char.

(** [buffer[n] == c], for [n] below [strlen(buffer)]. *)
Definition char_is (n : nat) (buffer : string) (c : ascii) : bool :=
  match String.get n buffer with
  | Some x => Ascii.eqb x c
  | None => false
  end.

(** What [listFile] does to a chunk [fgets] delivered: a final "\n" is cut
    off, together with a "\r" before it. *)
Definition chomp (buffer : string) : string :=
  let len := String.length buffer in
  if Nat.leb 1 len && char_is (len - 1) buffer newline then
    if Nat.leb 2 len && char_is (len - 2) buffer carriage_return then
      substring 0 (len - 2) buffer
    else substring 0 (len - 1) buffer
  else buffer.

(** [snprintf(buffer, PATH_MAX, "ls -1 %s", pattern.c_str())] *)
Definition ls_command (pattern : string) : string :=
  substring 0 (PATH_MAX - 1) ("ls -1 " ++ pattern)%string.

(** [popen(command, "r")] and the chunks [fgets] then reads from the pipe,
    one per call; [None] when [popen] fails.  The pattern goes into the
    command unquoted; what the command does besides writing to the pipe is
    outside the model, which is used only for what the pipe delivers. *)
Definition Shell := string -> option (list string).

(** The loop [while (fgets(buffer, sizeof(buffer), pipe) != NULL)]. *)
Fixpoint listFile_loop (fs : FileSystem) (chunks : list string)
    (files : list string) : list string :=
  match chunks with
  | [] => files
  | buffer :: rest =>
      let name := chomp buffer in
      listFile_loop fs rest
        (if fileExists fs name then files ++ [name] else files)
  end.

Definition listFile (sh : Shell) (fs : FileSystem) (files : list string)
    (pattern : string) : Z * list string :=
  match sh (ls_command pattern) with
  | None => (1%Z, files)
  | Some chunks => (0%Z, listFile_loop fs chunks files)
  end.

(** "massif.out.combine" *)
Definition DEFAULT_OUTPUTNAME : string := "massif.out.combine"%string.

Record InputArgs : Type := mkInputArgs {
  deleteSuccess : bool;
  verbose : bool;
  outputFile : string;
  inputFiles : list string
}.

(** [InputArgs()] *)
Definition default_args : InputArgs :=
  mkInputArgs false false DEFAULT_OUTPUTNAME [].

(** What [getopt(argc, argv, "vdo:")] delivers until it returns -1: the
    option characters in order, each with its [optarg], and the operands
    [argv[optind]], ..., [argv[argc-1]] it leaves. *)
Record Getopt : Type := mkGetopt {
  options : list (ascii * string);
  operands : list string
}.

(** The [switch (opt)] of [InputArgs::parse]. *)
Definition set_option (args : InputArgs) (o : ascii * string) : InputArgs :=
  match fst o with
  | "v"%char =>
      mkInputArgs (deleteSuccess args) true (outputFile args) (inputFiles args)
  | "o"%char =>
      mkInputArgs (deleteSuccess args) (verbose args) (snd o) (inputFiles args)
  | "d"%char =>
      mkInputArgs true (verbose args) (outputFile args) (inputFiles args)
  | _ => args
  end.

(** The body of the loop over the operands. *)
Definition add_operand (sh : Shell) (fs : FileSystem) (args : InputArgs)
    (operand : string) : InputArgs :=
  if fileExists fs operand then
    mkInputArgs (deleteSuccess args) (verbose args) (outputFile args)
      (inputFiles args ++ [operand])
  else
    match listFile sh fs [] operand with
    | (r, files) =>
        if (r =? 0)%Z && Nat.ltb 0 (List.length files) then
          mkInputArgs (deleteSuccess args) (verbose args) (outputFile args)
            (inputFiles args ++ files)
        else args
    end.

(** [InputArgs::parse] *)
Definition parse (sh : Shell) (fs : FileSystem) (g : Getopt) (args : InputArgs)
  : InputArgs :=
  fold_left (add_operand sh fs) (operands g)
    (fold_left set_option (options g) args).

(** The loop of [main] over the input files: the result of each [add] is
    dropped; [None] when the exception of [std::stoi] ends the program. *)
Fixpoint main_loop (fs : FileSystem) (files : list string) (m : MassifFile)
  : option MassifFile :=
  match files with
  | [] => Some m
  | file :: rest =>
      match add fs file m with
      | (Returned _, m') => main_loop fs rest m'
      | (Thrown, _) => None
      end
  end.

(** [main]: how the program ends and the file system it leaves. *)
Definition main {S : StdSort} (argc : nat) (g : Getopt) (sh : Shell)
    (kills : string -> string -> bool) (locked : string -> bool)
    (sink : Sink) (fs : FileSystem)
  : Outcome * FileSystem :=
  if Nat.leb argc 1 then (Returned (-1), fs)
  else
    let args := parse sh fs g default_args in
    match main_loop fs (inputFiles args) empty_file with
    | None => (Thrown, fs)
    | Some massifFile =>
        match write sink (outputFile args) massifFile fs with
        | (ret, _, fs') =>
            if (ret =? 0)%Z && deleteSuccess args then
              (Returned 0,
               snd (deleteFiles kills locked fs' (inputFiles args)))
            else (Returned 0, fs')
        end
    end.

(** A sample of names that resolve through one directory entry: a path
    and the same path after "./". *)
Definition plain (p : string) : string :=
  match p with
  | String "."%char (String "/"%char r) => r
  | _ => p
  end.

Definition same_entry (p q : string) : bool :=
  String.eqb (plain p) (plain q).

(** [files_A_B_headed], in which "./A" names the file "A" as well. *)
Definition files_dot_A : FileSystem :=
  store files_A_B_headed "./A" file_A.

(* ================================================================== *)
(** * Properties of the reading loop *)

Section ReadLoop.

Variable ignore_header : bool.

Lemma read_loop_app (a b : list string) (l : Loop) :
  read_loop ignore_header (a ++ b) l =
  match read_loop ignore_header a l with
  | Continue l' => read_loop ignore_header b l'
  | Exit o m => Exit o m
  end.
Proof.
  revert l; induction a as [|str a IH]; intros l; simpl; [reflexivity|].
  destruct (loop_body ignore_header str l); [apply IH | reflexivity].
Qed.

(** An invariant of the loop body, on lines that satisfy [P], is an
    invariant of the loop; the function is only ever left with the object
    as some iteration saw it. *)
Lemma read_loop_invariant (P : string -> Prop) (I : Loop -> Prop) :
  (forall str l, P str -> I l ->
     match loop_body ignore_header str l with
     | Continue l' => I l'
     | Exit _ m => m = this l
     end) ->
  forall lines l, Forall P lines -> I l ->
    match read_loop ignore_header lines l with
    | Continue l' => I l'
    | Exit _ m => exists l0, I l0 /\ m = this l0
    end.
Proof.
  intros Hstep lines; induction lines as [|str lines IH]; intros l HP Hl; simpl.
  - exact Hl.
  - inversion HP as [|? ? Hstr HP']; subst.
    specialize (Hstep str l Hstr Hl).
    destruct (loop_body ignore_header str l) as [l'|o m].
    + apply IH; assumption.
    + exists l; split; assumption.
Qed.

Lemma loop_body_coherent (str : string) (l : Loop) :
  coherent l ->
  match loop_body ignore_header str l with
  | Continue l' => coherent l'
  | Exit o _ => o = Thrown
  end.
Proof.
  destruct l as [st p m]; unfold coherent, loop_body; simpl.
  destruct (keyword_regex str); [intros _; exact I|].
  destruct st, (String.eqb str snapshot_mark), (snapshot_regex str), p;
    simpl; intros H;
    try destruct (snapshot_time_regex str);
    try destruct (stoi _);
    simpl; congruence || exact I.
Qed.

Lemma read_loop_coherent (lines : list string) (l : Loop) :
  coherent l ->
  match read_loop ignore_header lines l with
  | Continue l' => coherent l'
  | Exit o _ => o = Thrown
  end.
Proof.
  revert l; induction lines as [|str lines IH]; intros l Hl; simpl.
  - exact Hl.
  - pose proof (loop_body_coherent str l Hl) as Hs.
    destruct (loop_body ignore_header str l); [apply IH, Hs | exact Hs].
Qed.

(** Neither [return 2] can be reached: a parse returns 0 or is left by
    the exception of [std::stoi]. *)
Lemma appendLines_outcome (lines : list string) (m : MassifFile) :
  fst (appendLines ignore_header lines m) = Returned 0
  \/ fst (appendLines ignore_header lines m) = Thrown.
Proof.
  unfold appendLines.
  pose proof (read_loop_coherent lines (mkLoop NONE None m) eq_refl) as H.
  destruct (read_loop ignore_header lines (mkLoop NONE None m)); simpl.
  - left; reflexivity.
  - right; exact H.
Qed.

(** Without a keyword line the loop stays where it starts. *)
Lemma read_loop_stays_NONE (lines : list string) (m : MassifFile) :
  Forall (fun str => keyword_regex str = false) lines ->
  read_loop ignore_header lines (mkLoop NONE None m)
  = Continue (mkLoop NONE None m).
Proof.
  induction 1 as [|str lines Hstr _ IH]; simpl; [reflexivity|].
  unfold loop_body; rewrite Hstr; simpl. exact IH.
Qed.

End ReadLoop.

(* ================================================================== *)
(** * What a parse adds to the document *)

Lemma last_time_capture_snoc (body : list string) (str : string) :
  last_time_capture (body ++ [str]) =
  match time_capture str with
  | Some t => Some t
  | None => last_time_capture body
  end.
Proof.
  induction body as [|x body IH]; simpl.
  - destruct (time_capture str); reflexivity.
  - rewrite IH. destruct (time_capture str); reflexivity.
Qed.

Lemma key_of_body_snoc (body : list string) (str : string) :
  key_of_body (body ++ [str]) =
  match time_capture str with
  | Some t => t
  | None => key_of_body body
  end.
Proof.
  unfold key_of_body. rewrite last_time_capture_snoc.
  destruct (time_capture str); reflexivity.
Qed.

Lemma stoi_Some (digits : string) (t : Z) :
  stoi digits = Some t ->
  t = decimal_value 0 digits /\ (t <= INT_MAX)%Z.
Proof.
  unfold stoi.
  destruct (Z.leb_spec (decimal_value 0 digits) INT_MAX) as [Hle|Hgt];
    intros H; inversion H; subst; split; [reflexivity | exact Hle].
Qed.

Lemma stoi_fits (digits : string) :
  (decimal_value 0 digits <= INT_MAX)%Z ->
  stoi digits = Some (decimal_value 0 digits).
Proof.
  unfold stoi. intros H.
  destruct (Z.leb_spec (decimal_value 0 digits) INT_MAX); [reflexivity | lia].
Qed.

Section Growth.

Variable P : string -> Prop.
Variable m : MassifFile.

Lemma grown_push_header (ignore_header : bool) (d : MassifFile)
    (newh : list string) (new : list Snapshot) (str : string) :
  ignore_header = false -> P str -> keyword_regex str = true ->
  grown P ignore_header m d newh new ->
  grown P ignore_header m (push_header str d) (newh ++ [str]) new.
Proof.
  intros Hih HP K (Hh & Hs & Fh & Fs & Ht).
  unfold grown, added_by in *; simpl.
  rewrite Hh, <- app_assoc. repeat split; try assumption.
  - apply Forall_app; split; [assumption|].
    constructor; [split; assumption | constructor].
  - intros Hx; congruence.
Qed.

Lemma grown_push_pending (ignore_header : bool) (d : MassifFile)
    (newh : list string) (new : list Snapshot) (p : option Snapshot) :
  pending_ok P p ->
  grown P ignore_header m d newh new ->
  exists new', grown P ignore_header m (push_pending p d) newh new'
               /\ (new = [] -> p = None -> new' = []).
Proof.
  intros Hp (Hh & Hs & Fh & Fs & Ht).
  destruct p as [s|]; simpl.
  - destruct Hp as [Hb Hk].
    destruct (contents s) as [|b body] eqn:Hc.
    + exists new. split; [repeat split; assumption | discriminate].
    + exists (new ++ [s]). split; [|discriminate].
      unfold grown, added_by in *; simpl.
      rewrite Hs, <- app_assoc. repeat split; try assumption.
      apply Forall_app; split; [assumption|].
      constructor; [|constructor].
      unfold snapshot_ok. rewrite Hc.
      split; [discriminate | split; assumption].
  - exists new. split; [repeat split; assumption | auto].
Qed.

Lemma loop_body_inv (ignore_header : bool) (str : string) (l : Loop) :
  P str -> loop_inv P ignore_header m l ->
  match loop_body ignore_header str l with
  | Continue l' => loop_inv P ignore_header m l'
  | Exit _ m' => m' = this l
  end.
Proof.
  destruct l as [st p d]. revert ignore_header.
  intros ignore_header HP (newh & new & Hg & Hp & Hne). simpl in *.
  unfold loop_body; simpl.
  destruct (keyword_regex str) eqn:K.
  { (* a keyword line *)
    destruct ignore_header eqn:Hih.
    - exists newh, new.
      split; [exact Hg | split; [exact Hp | intros Hx; discriminate]].
    - exists (newh ++ [str]), new. simpl. split; [|split]; auto.
      + apply grown_push_header; auto.
      + intros _. left. destruct newh; discriminate. }
  destruct st; simpl.
  5: { exists newh, new. auto. }
  all: assert (Hnh : ignore_header = false -> newh <> [])
    by (intros Hih; destruct (Hne Hih) as [Hx|(Hx & _)];
        [assumption | discriminate]).
  - (* HEADER *)
    destruct (String.eqb str snapshot_mark).
    + destruct (grown_push_pending _ d newh new p Hp Hg) as (new' & Hg' & _).
      exists newh, new'. simpl. split; [|split]; auto.
    + exists newh, new. simpl. split; [|split]; auto.
  - (* SNAPSHOT_MARK *)
    destruct (snapshot_regex str).
    + exists newh, new. simpl. split; [|split]; auto.
    + exists newh, new. simpl. split; [|split]; auto.
  - (* SNAPSHOT_NAME *)
    destruct (String.eqb str snapshot_mark).
    + destruct p as [s|]; [reflexivity|].
      exists newh, new. simpl. split; [|split]; auto.
    + exists newh, new. simpl. split; [|split]; auto.
  - (* SNAPSHOT_CONTENT *)
    destruct (String.eqb_spec str snapshot_mark) as [Hmark|Hmark].
    + destruct (grown_push_pending _ d newh new p Hp Hg) as (new' & Hg' & _).
      exists newh, new'. simpl. split; [|split]; auto.
    + destruct p as [s|]; [|reflexivity].
      destruct Hp as [Hb Hk].
      unfold snapshot_time_regex.
      destruct (search_literal_digits "time=" str) as [digits|] eqn:Hre.
      * destruct (stoi digits) as [t|] eqn:Hst; [|reflexivity].
        apply stoi_Some in Hst. destruct Hst as [Ht Hle].
        exists newh, new. simpl. split; [|split]; auto.
        assert (Hcap : time_capture str = Some t)
          by (unfold time_capture, snapshot_time_regex;
              rewrite Hre, Ht; reflexivity).
        split.
        -- apply Forall_app; split; [assumption|].
           constructor; [|constructor].
           unfold body_line_ok, fits_int. rewrite Hcap. auto.
        -- rewrite key_of_body_snoc, Hcap. reflexivity.
      * exists newh, new. simpl. split; [|split]; auto.
        assert (Hcap : time_capture str = None)
          by (unfold time_capture, snapshot_time_regex;
              rewrite Hre; reflexivity).
        split.
        -- apply Forall_app; split; [assumption|].
           constructor; [|constructor].
           unfold body_line_ok, fits_int. rewrite Hcap. auto.
        -- rewrite key_of_body_snoc, Hcap. exact Hk.
Qed.

(** What [appendLines] leaves in the object, whichever way it ends. *)
Lemma appendLines_grown (ignore_header : bool) (lines : list string) :
  Forall P lines ->
  exists newh new,
    grown P ignore_header m (snd (appendLines ignore_header lines m)) newh new
    /\ (ignore_header = false -> new <> [] -> newh <> []).
Proof.
  intros HP.
  assert (H0 : loop_inv P ignore_header m (mkLoop NONE None m)).
  { exists [], []. unfold grown, added_by; simpl.
    rewrite !app_nil_r. repeat split; auto. }
  pose proof (read_loop_invariant ignore_header P
                (loop_inv P ignore_header m) (loop_body_inv ignore_header) lines _ HP H0) as H.
  unfold appendLines.
  destruct (read_loop ignore_header lines (mkLoop NONE None m)) as [l|o m'];
    simpl.
  - destruct H as (newh & new & Hg & Hp & Hne).
    destruct (grown_push_pending _ _ newh new _ Hp Hg) as (new' & Hg' & Hnil).
    exists newh, new'. split; [assumption|].
    intros Hih Hnew'. destruct (Hne Hih) as [Hx|(_ & Hx & Hy)]; [assumption|].
    exfalso. apply Hnew'. apply Hnil; assumption.
  - destruct H as (l0 & (newh & new & Hg & Hp & Hne) & ->).
    exists newh, new. split; [assumption|].
    intros Hih Hnew. destruct (Hne Hih) as [Hx|(_ & _ & Hy)];
      [assumption | contradiction].
Qed.

End Growth.

(* ================================================================== *)
(** * Single steps of the state machine *)

Lemma keyword_regex_mark : keyword_regex snapshot_mark = false.
Proof. reflexivity. Qed.

Lemma step_mark (ih : bool) (l : Loop) :
  status l = HEADER \/ status l = SNAPSHOT_CONTENT ->
  loop_body ih snapshot_mark l
  = Continue (mkLoop SNAPSHOT_MARK None (push_pending (snapshot l) (this l))).
Proof.
  intros H. unfold loop_body.
  rewrite keyword_regex_mark, String.eqb_refl.
  destruct H as [-> | ->]; reflexivity.
Qed.

Lemma step_index (ih : bool) (idx : string) (d : MassifFile) :
  keyword_regex idx = false -> snapshot_regex idx = true ->
  loop_body ih idx (mkLoop SNAPSHOT_MARK None d)
  = Continue (mkLoop SNAPSHOT_NAME None d).
Proof.
  intros K R. unfold loop_body. rewrite K; simpl. rewrite R. reflexivity.
Qed.

Lemma step_open (ih : bool) (d : MassifFile) :
  loop_body ih snapshot_mark (mkLoop SNAPSHOT_NAME None d)
  = Continue (mkLoop SNAPSHOT_CONTENT (Some (mkSnapshot 0 [])) d).
Proof.
  unfold loop_body. rewrite keyword_regex_mark, String.eqb_refl. reflexivity.
Qed.

(** Delimiter, index line, delimiter: the first delimiter closes whatever
    is pending, the second opens a snapshot with no line. *)
Lemma open_sequence (ih : bool) (idx : string) (l : Loop) :
  status l = HEADER \/ status l = SNAPSHOT_CONTENT ->
  keyword_regex idx = false -> snapshot_regex idx = true ->
  read_loop ih [snapshot_mark; idx; snapshot_mark] l
  = Continue (mkLoop SNAPSHOT_CONTENT (Some (mkSnapshot 0 []))
                (push_pending (snapshot l) (this l))).
Proof.
  intros H K R. simpl.
  rewrite (step_mark ih l H), (step_index ih idx _ K R), step_open.
  reflexivity.
Qed.

(** A body line in a snapshot: it is appended, and its [time=] integer,
    when it has one that fits, becomes the key. *)
Lemma step_body_line (ih : bool) (str : string) (s : Snapshot) (d : MassifFile) :
  keyword_regex str = false -> str <> snapshot_mark -> fits_int str ->
  loop_body ih str (mkLoop SNAPSHOT_CONTENT (Some s) d)
  = Continue (mkLoop SNAPSHOT_CONTENT
                (Some (mkSnapshot (match time_capture str with
                                   | Some t => t
                                   | None => time s
                                   end) (contents s ++ [str]))) d).
Proof.
  intros K Hm Hf. unfold loop_body. rewrite K; simpl.
  apply String.eqb_neq in Hm. rewrite Hm; simpl.
  unfold fits_int, time_capture in *.
  destruct (snapshot_time_regex str) as [digits|]; [|reflexivity].
  rewrite (stoi_fits digits Hf). reflexivity.
Qed.

(* ================================================================== *)
(** * The parser: claims C2, C3 and C4 *)

Lemma appendLines_app (ih : bool) (pre rest : list string) (m : MassifFile)
    (l : Loop) :
  read_loop ih pre (mkLoop NONE None m) = Continue l ->
  appendLines ih (pre ++ rest) m =
  match read_loop ih rest l with
  | Continue l' => (Returned 0, push_pending (snapshot l') (this l'))
  | Exit o m' => (o, m')
  end.
Proof.
  intros H. unfold appendLines. rewrite read_loop_app, H. reflexivity.
Qed.

Lemma last_time_capture_none (body : list string) :
  Forall (fun b => time_capture b = None) body ->
  last_time_capture body = None.
Proof.
  induction 1 as [|b body Hb _ IH]; simpl; [reflexivity|].
  rewrite IH. exact Hb.
Qed.

Lemma last_time_capture_split (pre post : list string) (str : string) (t : Z) :
  time_capture str = Some t ->
  Forall (fun b => time_capture b = None) post ->
  last_time_capture (pre ++ str :: post) = Some t.
Proof.
  intros Hstr Hpost. induction pre as [|x pre IH]; simpl.
  - rewrite (last_time_capture_none post Hpost). exact Hstr.
  - rewrite IH. reflexivity.
Qed.

(** C2. A source none of whose lines matches [^(desc|cmd|time_unit):] leaves
    the document as it was: the state machine never leaves [NONE], no header
    and no snapshot is added, and the parse returns 0.  The same holds of
    [appendFile] on a file with these lines. *)
Theorem no_keyword_line_no_change (ih : bool) (lines : list string)
    (m : MassifFile) :
  Forall (fun str => keyword_regex str = false) lines ->
  read_loop ih lines (mkLoop NONE None m) = Continue (mkLoop NONE None m)
  /\ appendLines ih lines m = (Returned 0, m)
  /\ forall (fs : FileSystem) (path bytes : string),
       fs path = Some bytes -> getlines bytes = lines ->
       appendFile fs path ih m = (Returned 0, m).
Proof.
  intros H.
  pose proof (read_loop_stays_NONE ih lines m H) as Hloop.
  assert (Happ : appendLines ih lines m = (Returned 0, m))
    by (unfold appendLines; rewrite Hloop; reflexivity).
  split; [exact Hloop | split; [exact Happ|]].
  intros fs path bytes Hfs Hlines. unfold appendFile.
  rewrite Hfs, Hlines. exact Happ.
Qed.

Lemma no_keyword_line_no_change_witness :
  read_loop false
    [snapshot_mark; "snapshot=0"; snapshot_mark; "time=50"; "mem_heap_B=5"]%string
    (mkLoop NONE None empty_file) = Continue (mkLoop NONE None empty_file)
  /\ appendLines false
       [snapshot_mark; "snapshot=0"; snapshot_mark; "time=50"; "mem_heap_B=5"]%string
       empty_file = (Returned 0, empty_file)
  /\ forall (fs : FileSystem) (path bytes : string),
       fs path = Some bytes ->
       getlines bytes
       = [snapshot_mark; "snapshot=0"; snapshot_mark; "time=50"; "mem_heap_B=5"]%string ->
       appendFile fs path false empty_file = (Returned 0, empty_file).
Proof.
  apply (no_keyword_line_no_change false
           [snapshot_mark; "snapshot=0"; snapshot_mark; "time=50"; "mem_heap_B=5"]%string
           empty_file).
  repeat constructor.
Defined.

(** C3, as stated, fails: in the body [time=1], [time=2] the key is 2, the
    capture of the second matching line. *)
Lemma first_match_does_not_win : ~ first_match_wins.
Proof.
  intros H.
  pose proof (H false
                ["desc: x"; snapshot_mark; "snapshot=0"; snapshot_mark;
                 "time=1"; "time=2"]%string
                empty_file
                [mkSnapshot 2 ["time=1"; "time=2"]%string]
                (mkSnapshot 2 ["time=1"; "time=2"]%string)
                eq_refl (or_introl eq_refl)) as H'.
  vm_compute in H'. specialize (H' (le_n 2)). discriminate H'.
Qed.

(** C3, amended. In every snapshot a parse adds, the key is the integer
    captured from the last body line that matches [time=(\d+)] (0 when no
    line matches): every matching line overwrites the key. *)
Theorem last_match_wins (ih : bool) (lines : list string) (m : MassifFile) :
  exists new,
    added_by m (snd (appendLines ih lines m)) new
    /\ Forall (fun s => time s = key_of_body (contents s)) new
    /\ forall s pre str post t,
         In s new ->
         contents s = pre ++ str :: post ->
         time_capture str = Some t ->
         Forall (fun b => time_capture b = None) post ->
         time s = t.
Proof.
  destruct (appendLines_grown (fun _ => True) m ih lines) as
    (newh & new & (_ & Hs & _ & Fs & _) & _).
  { apply Forall_forall; intros; exact I. }
  assert (Hk : Forall (fun s => time s = key_of_body (contents s)) new).
  { eapply Forall_impl; [|exact Fs]. intros s (_ & _ & Hs'). exact Hs'. }
  exists new. split; [exact Hs | split; [exact Hk|]].
  intros s pre str post t Hin Hc Hstr Hpost.
  rewrite Forall_forall in Hk. rewrite (Hk s Hin).
  unfold key_of_body.
  rewrite Hc, (last_time_capture_split pre post str t Hstr Hpost).
  reflexivity.
Qed.

(** C4, as stated, fails: no input at all makes the parser return 2. *)
Lemma duplicate_open_unreachable :
  ~ (exists (ih : bool) (lines : list string) (m : MassifFile),
        fst (appendLines ih lines m) = Returned 2).
Proof.
  intros (ih & lines & m & H).
  destruct (appendLines_outcome ih lines m) as [H0|H0];
    rewrite H0 in H; discriminate H.
Qed.

(** C4, amended. On every input the parser returns 0 or is left by the
    exception of [std::stoi]; the branch that returns 2 for a second open is
    never taken.  When a snapshot with body lines is pending and another open
    sequence follows, its first delimiter closes and commits the pending
    snapshot, and its last delimiter opens a new one. *)
Theorem second_open_commits_pending (ih : bool) (lines : list string)
    (m : MassifFile) :
  (fst (appendLines ih lines m) = Returned 0
   \/ fst (appendLines ih lines m) = Thrown)
  /\ forall (l : Loop) (s : Snapshot) (idx : string),
       status l = SNAPSHOT_CONTENT -> snapshot l = Some s ->
       contents s <> [] ->
       keyword_regex idx = false -> snapshot_regex idx = true ->
       read_loop ih [snapshot_mark; idx; snapshot_mark] l
       = Continue (mkLoop SNAPSHOT_CONTENT (Some (mkSnapshot 0 []))
                     (mkMassifFile (headers (this l))
                                   (snapshots (this l) ++ [s]))).
Proof.
  split; [apply appendLines_outcome|].
  intros l s idx Hst Hp Hc K R.
  rewrite (open_sequence ih idx l (or_intror Hst) K R), Hp.
  unfold push_pending. destruct (contents s); [contradiction | reflexivity].
Qed.

(** The input of the specification: header, open sequence, a body line,
    a second open sequence, a body line. *)
Lemma second_open_commits_pending_witness :
  appendLines false
    ["desc: x"; snapshot_mark; "snapshot=0"; snapshot_mark; "time=1";
     snapshot_mark; "snapshot=1"; snapshot_mark; "time=2"]%string empty_file
  = (Returned 0,
     mkMassifFile ["desc: x"%string]
       [mkSnapshot 1 ["time=1"%string]; mkSnapshot 2 ["time=2"%string]])
  /\ read_loop false [snapshot_mark; "snapshot=1"%string; snapshot_mark]
       (mkLoop SNAPSHOT_CONTENT (Some (mkSnapshot 1 ["time=1"%string]))
          (mkMassifFile ["desc: x"%string] []))
     = Continue (mkLoop SNAPSHOT_CONTENT (Some (mkSnapshot 0 []))
                   (mkMassifFile ["desc: x"%string]
                      [mkSnapshot 1 ["time=1"%string]])).
Proof.
  split; [reflexivity|].
  apply (proj2 (second_open_commits_pending false [] empty_file)
           (mkLoop SNAPSHOT_CONTENT (Some (mkSnapshot 1 ["time=1"%string]))
              (mkMassifFile ["desc: x"%string] []))
           (mkSnapshot 1 ["time=1"%string]) "snapshot=1"%string);
    try reflexivity.
  discriminate.
Defined.

(* ================================================================== *)
(** * Insertion sort meets the contract of [std::sort] *)

Lemma insert_by_time_permutation (s : Snapshot) (l : list Snapshot) :
  Permutation (s :: l) (insert_by_time s l).
Proof.
  induction l as [|x r IH]; simpl; [apply Permutation_refl|].
  destruct (time s <=? time x)%Z; [apply Permutation_refl|].
  apply perm_trans with (x :: s :: r); [apply perm_swap|].
  apply perm_skip, IH.
Qed.

Lemma insert_by_time_sorted (s : Snapshot) (l : list Snapshot) :
  StronglySorted time_le l -> StronglySorted time_le (insert_by_time s l).
Proof.
  induction 1 as [|x r Hr IH Hx]; simpl.
  - constructor; constructor.
  - destruct (Z.leb_spec (time s) (time x)) as [Hle|Hgt].
    + constructor; [constructor; assumption|].
      constructor; [exact Hle|].
      eapply Forall_impl; [|exact Hx].
      intros y Hy. unfold time_le in *. lia.
    + constructor; [exact IH|].
      eapply Permutation_Forall; [apply insert_by_time_permutation|].
      constructor; [unfold time_le; lia | exact Hx].
Qed.

Lemma insertion_sort_permutation (l : list Snapshot) :
  Permutation l (insertion_sort l).
Proof.
  induction l as [|s r IH]; simpl; [constructor|].
  apply perm_trans with (s :: insertion_sort r);
    [apply perm_skip, IH | apply insert_by_time_permutation].
Qed.

Lemma insertion_sort_sorted (l : list Snapshot) :
  StronglySorted time_le (insertion_sort l).
Proof.
  induction l as [|s r IH]; simpl;
    [constructor | apply insert_by_time_sorted, IH].
Qed.

#[export] Instance insertion_StdSort : StdSort := {
  std_sort := insertion_sort;
  std_sort_permutation := insertion_sort_permutation;
  std_sort_sorted := insertion_sort_sorted
}.

(* ================================================================== *)
(** * The output stream *)

Lemma string_app_assoc (a b c : string) :
  ((a ++ b) ++ c = a ++ (b ++ c))%string.
Proof.
  induction a as [|x a IH]; simpl; [reflexivity | rewrite IH; reflexivity].
Qed.

Lemma string_app_nil_r (a : string) : (a ++ EmptyString = a)%string.
Proof.
  induction a as [|x a IH]; simpl; [reflexivity | rewrite IH; reflexivity].
Qed.

Lemma unlines_app (a b : list string) :
  unlines (a ++ b) = (unlines a ++ unlines b)%string.
Proof.
  induction a as [|s a IH]; simpl; [reflexivity|].
  rewrite IH, string_app_assoc. reflexivity.
Qed.

(** A stream that is good after a write was good before it and has taken
    the line. *)
Lemma put_line_good (f : ofstream) (str : string) :
  good (put_line f str) = true ->
  good f = true
  /\ bytes (put_line f str)
     = (bytes f ++ str ++ String newline EmptyString)%string.
Proof.
  unfold put_line. destruct (good f) eqn:G; [|intros H; congruence].
  destruct (left f) as [[|k]|]; simpl; intros H;
    [discriminate | auto | auto].
Qed.

Lemma writeList_good (l : StringList) (f : ofstream) :
  good (writeList f l) = true ->
  good f = true /\ bytes (writeList f l) = (bytes f ++ unlines l)%string.
Proof.
  unfold writeList. revert f; induction l as [|s l IH]; intros f; simpl.
  - intros H. rewrite string_app_nil_r. auto.
  - intros H. destruct (IH _ H) as [G Hb].
    destruct (put_line_good f s G) as [G' Hb'].
    split; [exact G'|].
    rewrite Hb, Hb', !string_app_assoc. reflexivity.
Qed.

Lemma writeSnapshot_good (f : ofstream) (i : nat) (s : Snapshot) :
  good (writeSnapshot f i s) = true ->
  good f = true
  /\ bytes (writeSnapshot f i s) = (bytes f ++ unlines (block i s))%string.
Proof.
  unfold writeSnapshot. intros H.
  destruct (writeList_good _ _ H) as [G Hb].
  destruct (writeList_good _ _ G) as [G' Hb'].
  split; [exact G'|].
  rewrite Hb, Hb', string_app_assoc.
  change (block i s) with (titles i ++ contents s).
  rewrite unlines_app. reflexivity.
Qed.

Lemma write_loop_done (snaps : list Snapshot) (f f' : ofstream) (i : nat) :
  write_loop f i snaps = (f', true) ->
  bytes f' = (bytes f ++ unlines (List.concat (blocks_from i snaps)))%string.
Proof.
  revert f i; induction snaps as [|s rest IH]; intros f i;
    cbn [write_loop blocks_from List.concat].
  - intros H; inversion H; subst. cbn [unlines].
    rewrite string_app_nil_r. reflexivity.
  - destruct (good (writeSnapshot f i s)) eqn:G; [|intros H; discriminate].
    intros H. rewrite (IH _ _ H).
    destruct (writeSnapshot_good f i s G) as [_ ->].
    rewrite unlines_app, string_app_assoc. reflexivity.
Qed.

(** On a stream with room for every line, everything is written. *)
Lemma writeList_unbounded (l : StringList) (b : string) :
  writeList (mkStream true b None) l
  = mkStream true (b ++ unlines l)%string None.
Proof.
  unfold writeList. revert b; induction l as [|s l IH]; intros b; simpl.
  - rewrite string_app_nil_r. reflexivity.
  - unfold put_line at 2; simpl.
    rewrite IH, !string_app_assoc. reflexivity.
Qed.

Lemma write_loop_unbounded (snaps : list Snapshot) (b : string) (i : nat) :
  write_loop (mkStream true b None) i snaps
  = (mkStream true (b ++ unlines (List.concat (blocks_from i snaps)))%string None,
     true).
Proof.
  revert b i; induction snaps as [|s rest IH]; intros b i;
    cbn [write_loop blocks_from List.concat].
  - cbn [unlines]. rewrite string_app_nil_r. reflexivity.
  - unfold writeSnapshot. rewrite !writeList_unbounded. cbn [good].
    rewrite IH.
    change (block i s) with (titles i ++ contents s).
    rewrite !unlines_app, !string_app_assoc. reflexivity.
Qed.

Section Write.

Context {S : StdSort}.

Lemma write_empty (sink : Sink) (path : string) (m : MassifFile)
    (fs : FileSystem) :
  is_empty m -> write sink path m fs = ((-1)%Z, m, fs).
Proof.
  intros [Hh Hs]. unfold write. rewrite Hh, Hs. reflexivity.
Qed.

Lemma not_empty_test (m : MassifFile) :
  Nat.leb (List.length (headers m)) 0
  && Nat.leb (List.length (snapshots m)) 0 = false ->
  ~ is_empty m.
Proof.
  intros E [Hh Hs]. rewrite Hh, Hs in E. discriminate E.
Qed.

Lemma empty_test (m : MassifFile) :
  ~ is_empty m ->
  Nat.leb (List.length (headers m)) 0
  && Nat.leb (List.length (snapshots m)) 0 = false.
Proof.
  intros H. unfold is_empty in H.
  destruct (headers m), (snapshots m); try reflexivity.
  exfalso; apply H; split; reflexivity.
Qed.

(** What a [write] that returns 0 has done. *)
Lemma write_success (sink : Sink) (path : string) (m m' : MassifFile)
    (fs fs' : FileSystem) :
  write sink path m fs = (0%Z, m', fs') ->
  ~ is_empty m
  /\ m' = mkMassifFile (headers m) (std_sort (snapshots m))
  /\ fs' = store fs path
             (unlines (output_lines (headers m') (snapshots m'))).
Proof.
  unfold write.
  destruct (Nat.leb (List.length (headers m)) 0
            && Nat.leb (List.length (snapshots m)) 0) eqn:E;
    [intros H; discriminate H|].
  destruct (opens sink); cbn [negb]; [|intros H; discriminate H].
  cbn [headers snapshots].
  destruct (good (writeList (mkStream true EmptyString (room sink))
                    (headers m))) eqn:G;
    cbn [negb]; [|intros H; discriminate H].
  destruct (write_loop _ 0 (std_sort (snapshots m))) as [f2 [|]] eqn:W;
    [|intros H; discriminate H].
  destruct (closes sink); intros H; [|discriminate H].
  inversion H; subst; clear H.
  split; [apply not_empty_test, E | split; [reflexivity|]].
  rewrite (write_loop_done _ _ _ _ W).
  destruct (writeList_good _ _ G) as [_ ->].
  cbn [bytes headers snapshots]. unfold output_lines.
  rewrite unlines_app. reflexivity.
Qed.

(** On a destination where nothing fails, a document that is not empty is
    written, and [write] returns 0. *)
Lemma write_sound_sink (path : string) (m : MassifFile) (fs : FileSystem) :
  ~ is_empty m ->
  write sound_sink path m fs
  = (0%Z, mkMassifFile (headers m) (std_sort (snapshots m)),
     store fs path
       (unlines (output_lines (headers m) (std_sort (snapshots m))))).
Proof.
  intros H. unfold write. rewrite (empty_test m H).
  cbn [sound_sink opens room closes negb headers snapshots].
  rewrite writeList_unbounded. cbn [good negb].
  rewrite write_loop_unbounded. cbn [bytes].
  unfold output_lines. rewrite unlines_app. reflexivity.
Qed.

End Write.

(* ================================================================== *)
(** * The serializer: claims C7, C8 and C9 *)

Lemma store_same (fs : FileSystem) (path content : string) :
  store fs path content path = Some content.
Proof. unfold store. rewrite String.eqb_refl. reflexivity. Qed.

Lemma StronglySorted_nth_error {A : Type} (R : A -> A -> Prop) (l : list A) :
  StronglySorted R l ->
  forall i j a b, i < j ->
    nth_error l i = Some a -> nth_error l j = Some b -> R a b.
Proof.
  induction 1 as [|x l Hl IH Hx]; intros i j a b Hij Ha Hb.
  - destruct i; discriminate Ha.
  - destruct j as [|j]; [lia|].
    destruct i as [|i]; simpl in Ha, Hb.
    + inversion Ha; subst.
      rewrite Forall_forall in Hx. apply Hx.
      eapply nth_error_In; exact Hb.
    + apply (IH i j); [lia | assumption | assumption].
Qed.

Lemma blocks_from_length (snaps : list Snapshot) (k : nat) :
  List.length (blocks_from k snaps) = List.length snaps.
Proof.
  revert k; induction snaps as [|s rest IH]; intros k; simpl;
    [reflexivity | rewrite IH; reflexivity].
Qed.

Lemma blocks_from_index_lines (snaps : list Snapshot) (k : nat) :
  map index_line_of (blocks_from k snaps)
  = map index_line (seq k (List.length snaps)).
Proof.
  revert k; induction snaps as [|s rest IH]; intros k; simpl;
    [reflexivity | rewrite IH; reflexivity].
Qed.

Lemma blocks_from_nth_error (snaps : list Snapshot) (k i : nat) (s : Snapshot) :
  nth_error snaps i = Some s ->
  nth_error (blocks_from k snaps) i = Some (block (k + i) s).
Proof.
  revert k i; induction snaps as [|x rest IH]; intros k i H.
  - destruct i; discriminate H.
  - destruct i as [|i]; simpl in *.
    + inversion H; subst. rewrite Nat.add_0_r. reflexivity.
    + rewrite (IH (S k) i H). f_equal. f_equal. lia.
Qed.

(** C7. A document with no header and no snapshot is not written: [write]
    returns -1 before the destination is opened, so the file system is the
    one it found: no file is created and an existing destination keeps its
    bytes.  The object is unchanged as well. *)
Theorem empty_document_not_written {S : StdSort} (sink : Sink) (path : string)
    (m : MassifFile) (fs : FileSystem) :
  is_empty m ->
  write sink path m fs = ((-1)%Z, m, fs).
Proof.
  apply write_empty.
Qed.

Lemma empty_document_not_written_witness :
  write sound_sink "massif.out.combine" empty_file
    (store no_files "massif.out.combine" "old bytes")
  = ((-1)%Z, empty_file, store no_files "massif.out.combine" "old bytes").
Proof.
  apply (empty_document_not_written sound_sink "massif.out.combine" empty_file
           (store no_files "massif.out.combine" "old bytes")).
  split; reflexivity.
Defined.

(** C8. When [write] returns 0, the destination holds the headers followed
    by the blocks of the snapshots of the object in their order after the
    sort; these are the snapshots of the document, rearranged, and of any
    two of them the one emitted first has the smaller or an equal key. *)
Theorem output_sorted_by_time {S : StdSort} (sink : Sink) (path : string)
    (m m' : MassifFile) (fs fs' : FileSystem) :
  write sink path m fs = (0%Z, m', fs') ->
  fs' path = Some (unlines (output_lines (headers m) (snapshots m')))
  /\ Permutation (snapshots m) (snapshots m')
  /\ forall i j a b,
       i < j ->
       nth_error (snapshots m') i = Some a ->
       nth_error (snapshots m') j = Some b ->
       (time a <= time b)%Z.
Proof.
  intros H. destruct (write_success _ _ _ _ _ _ H) as (_ & Hm' & Hfs').
  subst m'. cbn [headers snapshots] in *. subst fs'.
  split; [apply store_same | split; [apply std_sort_permutation|]].
  intros i j a b Hij Ha Hb.
  exact (StronglySorted_nth_error time_le _ (std_sort_sorted _) i j a b Hij Ha Hb).
Qed.

Lemma output_sorted_by_time_witness :
  store no_files "out" (unlines (output_lines (headers sample_sorted)
                                   (snapshots sample_sorted))) "out"%string
  = Some (unlines (output_lines (headers sample_document)
                     (snapshots sample_sorted)))
  /\ Permutation (snapshots sample_document) (snapshots sample_sorted)
  /\ forall i j a b,
       i < j ->
       nth_error (snapshots sample_sorted) i = Some a ->
       nth_error (snapshots sample_sorted) j = Some b ->
       (time a <= time b)%Z.
Proof.
  apply (output_sorted_by_time sound_sink "out" sample_document sample_sorted
           no_files
           (store no_files "out"
              (unlines (output_lines (headers sample_sorted)
                          (snapshots sample_sorted))))).
  reflexivity.
Defined.

(** ** [std::to_string] writes the decimal numeral *)

Lemma to_string_all_digits (i : nat) : all_digits (to_string i).
Proof.
  unfold to_string. generalize (Nat.to_uint i) as u.
  induction u; intros c Hc; cbn in Hc;
    try contradiction;
    (destruct Hc as [<- | Hc]; [reflexivity | apply IHu, Hc]).
Qed.

Lemma decimal_value_string_of_uint (u : Decimal.uint) (acc : nat) :
  decimal_value (Z.of_nat acc) (DecimalString.NilEmpty.string_of_uint u)
  = Z.of_nat (Nat.of_uint_acc u acc).
Proof.
  revert acc; induction u; intros acc;
    cbn [DecimalString.NilEmpty.string_of_uint decimal_value Nat.of_uint_acc];
    [reflexivity | ..];
    rewrite <- IHu; f_equal; rewrite PeanoNat.Nat.tail_mul_spec;
    match goal with
    | |- context [digit_value ?c] =>
        let v := eval vm_compute in (digit_value c) in
        change (digit_value c) with v
    end; lia.
Qed.

(** Read as a decimal numeral, [std::to_string(i)] is [i]. *)
Lemma decimal_value_to_string (i : nat) :
  decimal_value 0 (to_string i) = Z.of_nat i.
Proof.
  unfold to_string.
  change 0%Z with (Z.of_nat 0).
  rewrite (decimal_value_string_of_uint (Nat.to_uint i) 0).
  change (Nat.of_uint_acc (Nat.to_uint i) 0) with (Nat.of_uint (Nat.to_uint i)).
  rewrite DecimalNat.Unsigned.of_to. reflexivity.
Qed.

Lemma nzhead_no_leading_zero (d : Decimal.uint) :
  match Decimal.nzhead d with
  | Decimal.D0 _ => False
  | _ => True
  end.
Proof.
  induction d; cbn; try exact I. exact IHd.
Qed.

(** [std::to_string(i)] is "0" or starts with a digit other than 0. *)
Lemma to_string_canonical (i : nat) :
  to_string i = "0"%string
  \/ exists c rest, to_string i = String c rest /\ c <> "0"%char.
Proof.
  unfold to_string.
  assert (E : Nat.to_uint i = Decimal.unorm (Nat.to_uint i)).
  { rewrite <- (DecimalNat.Unsigned.of_to i) at 1.
    apply DecimalNat.Unsigned.to_of. }
  rewrite E. unfold Decimal.unorm.
  pose proof (nzhead_no_leading_zero (Nat.to_uint i)) as H.
  destruct (Decimal.nzhead (Nat.to_uint i)); cbn;
    [left; reflexivity | contradiction | ..];
    right; eexists _, _; (split; [reflexivity | intros Hx; discriminate Hx]).
Qed.

Lemma index_lines_nth_error (snaps : list Snapshot) (i : nat) :
  i < List.length snaps ->
  nth_error (map index_line_of (blocks_from 0 snaps)) i = Some (index_line i).
Proof.
  intros Hi. rewrite blocks_from_index_lines.
  apply map_nth_error. rewrite nth_error_seq.
  apply Nat.ltb_lt in Hi. rewrite Hi. reflexivity.
Qed.

(** C9. When [write] returns 0 for a document with n snapshots, the
    destination holds the headers followed by n blocks; the index lines of
    the blocks are [snapshot=0], ..., [snapshot=n-1] in this order, and the
    block at position i is the delimiter, [snapshot=i], the delimiter and
    the body of the i-th snapshot after the sort, whatever the body holds.
    The index line at position i is the text [snapshot=] followed by the
    decimal numeral of i: digits only, no leading zero, of value i; the
    first lines read [snapshot=0], [snapshot=1], ..., and the eleventh
    [snapshot=10]. *)
Theorem output_indices_sequential {S : StdSort} (sink : Sink) (path : string)
    (m m' : MassifFile) (fs fs' : FileSystem) :
  write sink path m fs = (0%Z, m', fs') ->
  fs' path
  = Some (unlines (headers m ++ List.concat (blocks_from 0 (snapshots m'))))
  /\ List.length (blocks_from 0 (snapshots m')) = List.length (snapshots m)
  /\ map index_line_of (blocks_from 0 (snapshots m'))
     = map (fun i => ("snapshot=" ++ to_string i)%string)
           (seq 0 (List.length (snapshots m)))
  /\ (forall i s,
        nth_error (snapshots m') i = Some s ->
        nth_error (blocks_from 0 (snapshots m')) i
        = Some (snapshot_mark :: ("snapshot=" ++ to_string i)%string
                  :: snapshot_mark :: contents s))
  /\ (forall i,
        i < List.length (snapshots m) ->
        exists digits,
          nth_error (map index_line_of (blocks_from 0 (snapshots m'))) i
          = Some ("snapshot=" ++ digits)%string
          /\ all_digits digits
          /\ decimal_value 0 digits = Z.of_nat i
          /\ (digits = "0"%string
              \/ exists c rest, digits = String c rest /\ c <> "0"%char))
  /\ (0 < List.length (snapshots m) ->
      nth_error (map index_line_of (blocks_from 0 (snapshots m'))) 0
      = Some "snapshot=0"%string)
  /\ (1 < List.length (snapshots m) ->
      nth_error (map index_line_of (blocks_from 0 (snapshots m'))) 1
      = Some "snapshot=1"%string)
  /\ (2 < List.length (snapshots m) ->
      nth_error (map index_line_of (blocks_from 0 (snapshots m'))) 2
      = Some "snapshot=2"%string)
  /\ (10 < List.length (snapshots m) ->
      nth_error (map index_line_of (blocks_from 0 (snapshots m'))) 10
      = Some "snapshot=10"%string).
Proof.
  intros H. destruct (write_success _ _ _ _ _ _ H) as (_ & Hm' & Hfs').
  subst m'. cbn [headers snapshots] in *. subst fs'.
  assert (Hlen : List.length (std_sort (snapshots m))
                 = List.length (snapshots m))
    by (symmetry; apply Permutation_length, std_sort_permutation).
  split; [apply store_same | split; [|split; [|split]]].
  - rewrite blocks_from_length. exact Hlen.
  - rewrite blocks_from_index_lines, Hlen. reflexivity.
  - intros i s Hs. exact (blocks_from_nth_error _ 0 i s Hs).
  - rewrite <- Hlen.
    split; [|repeat split; intros Hn;
             rewrite (index_lines_nth_error _ _ Hn); reflexivity].
    intros i Hi. exists (to_string i).
    split; [exact (index_lines_nth_error _ i Hi)|].
    split; [apply to_string_all_digits|].
    split; [apply decimal_value_to_string | apply to_string_canonical].
Qed.

(** The sample document, whose bodies hold the index lines [snapshot=7] and
    [snapshot=3] of their sources: the text written, line by line. *)
Lemma output_indices_sequential_witness :
  fst (fst (write sound_sink "out" sample_document no_files)) = 0%Z
  /\ snd (write sound_sink "out" sample_document no_files) "out"%string
     = Some (unlines ["desc: x";
                      "#-----------"; "snapshot=0"; "#-----------";
                      "snapshot=3"; "time=50"; "mem_heap_B=5";
                      "#-----------"; "snapshot=1"; "#-----------";
                      "snapshot=7"; "time=100"; "mem_heap_B=10"]%string)
  /\ map index_line_of
       (blocks_from 0
          (snapshots (snd (fst (write sound_sink "out" sample_document
                                  no_files)))))
     = ["snapshot=0"; "snapshot=1"]%string
  /\ nth_error
       (map index_line_of
          (blocks_from 0
             (snapshots (snd (fst (write sound_sink "out" sample_document
                                     no_files)))))) 1
     = Some "snapshot=1"%string.
Proof.
  pose proof (output_indices_sequential sound_sink "out" sample_document
                (snd (fst (write sound_sink "out" sample_document no_files)))
                no_files
                (snd (write sound_sink "out" sample_document no_files))
                eq_refl) as (H1 & _ & H3 & _ & _ & _ & H7 & _).
  split; [reflexivity|].
  split; [exact H1 | split; [exact H3 | apply H7; repeat constructor]].
Defined.

(* ================================================================== *)
(** * The region without a body line: claim C10 *)

Lemma blocks_from_bodies (snaps : list Snapshot) (k : nat) :
  Forall (fun s => contents s <> []) snaps ->
  Forall (fun b => exists i line body,
              b = snapshot_mark :: index_line i :: snapshot_mark :: line :: body)
    (blocks_from k snaps).
Proof.
  intros H. revert k. induction H as [|s rest Hs _ IH]; intros k;
    cbn [blocks_from]; constructor; [|apply IH].
  unfold block. destruct (contents s) as [|line body]; [contradiction|].
  exists k, line, body. reflexivity.
Qed.

(** C10. A region that is opened (delimiter, index line, delimiter, read
    where a delimiter is recognized) and gets no body line before the end of
    the input or the next delimiter leaves no trace: at the end of the input
    the parse returns 0 with the document of the input cut before the region;
    before a delimiter the parse goes on as if the region's own three lines
    were absent.  No parse ever commits a snapshot without a body line.
    So [write] does with the document exactly what it does with the
    document of the input without the region, and in what [write] puts
    into the destination every block has a body line: its blocks are those
    of the snapshots of the document, one each. *)
Theorem empty_region_discarded (ih : bool) (pre rest : list string)
    (idx : string) (m : MassifFile) (l : Loop) :
  read_loop ih pre (mkLoop NONE None m) = Continue l ->
  status l = HEADER \/ status l = SNAPSHOT_CONTENT ->
  keyword_regex idx = false -> snapshot_regex idx = true ->
  appendLines ih (pre ++ [snapshot_mark; idx; snapshot_mark]) m
  = (Returned 0, push_pending (snapshot l) (this l))
  /\ appendLines ih (pre ++ [snapshot_mark; idx; snapshot_mark]) m
     = appendLines ih pre m
  /\ appendLines ih (pre ++ [snapshot_mark; idx; snapshot_mark]
                         ++ snapshot_mark :: rest) m
     = appendLines ih (pre ++ snapshot_mark :: rest) m
  /\ (forall lines, exists new,
        added_by m (snd (appendLines ih lines m)) new
        /\ Forall (fun s => contents s <> []) new)
  /\ (forall (S : StdSort) (sink : Sink) (path : string) (fs : FileSystem),
        write sink path
          (snd (appendLines ih (pre ++ [snapshot_mark; idx; snapshot_mark]) m))
          fs
        = write sink path (snd (appendLines ih pre m)) fs
        /\ write sink path
             (snd (appendLines ih (pre ++ [snapshot_mark; idx; snapshot_mark]
                                       ++ snapshot_mark :: rest) m)) fs
           = write sink path
               (snd (appendLines ih (pre ++ snapshot_mark :: rest) m)) fs)
  /\ (forall (S : StdSort) (lines : list string) (sink : Sink) (path : string)
             (fs fs' : FileSystem) (m' : MassifFile),
        Forall (fun s => contents s <> []) (snapshots m) ->
        write sink path (snd (appendLines ih lines m)) fs = (0%Z, m', fs') ->
        fs' path
        = Some (unlines (headers m'
                           ++ List.concat (blocks_from 0 (snapshots m'))))
        /\ List.length (blocks_from 0 (snapshots m'))
           = List.length (snapshots (snd (appendLines ih lines m)))
        /\ Forall (fun b => exists i line body,
                       b = snapshot_mark :: index_line i :: snapshot_mark
                             :: line :: body)
             (blocks_from 0 (snapshots m'))).
Proof.
  intros Hpre Hst K R.
  pose proof (open_sequence ih idx l Hst K R) as Hopen.
  assert (H1 : appendLines ih (pre ++ [snapshot_mark; idx; snapshot_mark]) m
               = (Returned 0, push_pending (snapshot l) (this l))).
  { rewrite (appendLines_app ih pre _ m l Hpre), Hopen. reflexivity. }
  assert (H2 : appendLines ih (pre ++ [snapshot_mark; idx; snapshot_mark]) m
               = appendLines ih pre m).
  { rewrite H1. unfold appendLines. rewrite Hpre. reflexivity. }
  assert (H3 : appendLines ih (pre ++ [snapshot_mark; idx; snapshot_mark]
                                   ++ snapshot_mark :: rest) m
               = appendLines ih (pre ++ snapshot_mark :: rest) m).
  { rewrite (appendLines_app ih pre _ m l Hpre).
    rewrite (appendLines_app ih pre _ m l Hpre).
    rewrite read_loop_app, Hopen.
    change (read_loop ih (snapshot_mark :: rest) ?x)
      with (match loop_body ih snapshot_mark x with
            | Continue l' => read_loop ih rest l'
            | Exit o m' => Exit o m'
            end).
    rewrite (step_mark ih l Hst).
    rewrite (step_mark ih (mkLoop SNAPSHOT_CONTENT _ _) (or_intror eq_refl)).
    reflexivity. }
  assert (H4 : forall lines, exists new,
             added_by m (snd (appendLines ih lines m)) new
             /\ Forall (fun s => contents s <> []) new).
  { intros lines.
    destruct (appendLines_grown (fun _ => True) m ih lines) as
      (newh & new & (_ & Hs & _ & Fs & _) & _).
    { apply Forall_forall; intros; exact I. }
    exists new. split; [exact Hs|].
    eapply Forall_impl; [|exact Fs]. intros s (Hc & _). exact Hc. }
  split; [exact H1 | split; [exact H2 | split; [exact H3 | split; [exact H4|]]]].
  split.
  - intros S sink path fs. rewrite H2, H3. split; reflexivity.
  - intros S lines sink path fs fs' m' Hm Hw.
    destruct (write_success _ _ _ _ _ _ Hw) as (_ & Hm' & Hfs').
    destruct (H4 lines) as (new & Hnew & Fnew). unfold added_by in Hnew.
    assert (Hall : Forall (fun s => contents s <> []) (snapshots m')).
    { subst m'. cbn [snapshots].
      eapply Permutation_Forall; [apply std_sort_permutation|].
      rewrite Hnew. apply Forall_app; split; assumption. }
    split; [rewrite Hfs'; apply store_same|].
    split; [|apply blocks_from_bodies, Hall].
    rewrite blocks_from_length. subst m'. cbn [snapshots].
    symmetry. apply Permutation_length, std_sort_permutation.
Qed.

(** A header, a snapshot with one body line, then an opened region that
    ends with the input: the text written has the one block. *)
Lemma empty_region_discarded_witness :
  appendLines false
    (["desc: x"; snapshot_mark; "snapshot=0"; snapshot_mark; "time=1"]%string
       ++ [snapshot_mark; "snapshot=1"%string; snapshot_mark]) empty_file
  = (Returned 0,
     mkMassifFile ["desc: x"%string] [mkSnapshot 1 ["time=1"%string]])
  /\ fst (fst (write sound_sink "out"
                 (snd (appendLines false
                         (["desc: x"; snapshot_mark; "snapshot=0";
                           snapshot_mark; "time=1"]%string
                            ++ [snapshot_mark; "snapshot=1"%string;
                                snapshot_mark]) empty_file))
                 no_files)) = 0%Z
  /\ snd (write sound_sink "out"
            (snd (appendLines false
                    (["desc: x"; snapshot_mark; "snapshot=0"; snapshot_mark;
                      "time=1"]%string
                       ++ [snapshot_mark; "snapshot=1"%string; snapshot_mark])
                    empty_file))
            no_files) "out"%string
     = Some (unlines ["desc: x"; "#-----------"; "snapshot=0"; "#-----------";
                      "time=1"]%string).
Proof.
  pose proof (empty_region_discarded false
           ["desc: x"; snapshot_mark; "snapshot=0"; snapshot_mark; "time=1"]%string
           [] "snapshot=1"%string empty_file
           (mkLoop SNAPSHOT_CONTENT (Some (mkSnapshot 1 ["time=1"%string]))
              (mkMassifFile ["desc: x"%string] []))
           eq_refl (or_intror eq_refl) eq_refl eq_refl)
    as (H1 & _ & _ & _ & _ & H6).
  split; [exact H1|]. split; [reflexivity|].
  exact (proj1 (H6 insertion_StdSort
                  (["desc: x"; snapshot_mark; "snapshot=0"; snapshot_mark;
                    "time=1"]%string
                     ++ [snapshot_mark; "snapshot=1"%string; snapshot_mark])
                  sound_sink "out"%string no_files _ _
                  (Forall_nil _) eq_refl)).
Defined.

(* ================================================================== *)
(** * Lines and bytes *)

Lemma getlines_line (c : ascii) (l rest : string) :
  Ascii.eqb c newline = false ->
  getlines (String c (l ++ String newline rest))
  = match getlines (l ++ String newline rest) with
    | [] => [String c EmptyString]
    | x :: xs => String c x :: xs
    end.
Proof.
  intros H. cbn [getlines]. rewrite H. reflexivity.
Qed.

(** Reading back what the output iterator wrote gives the lines written,
    when none of them holds a line terminator. *)
Lemma getlines_unlines (ls : list string) :
  Forall no_newline ls -> getlines (unlines ls) = ls.
Proof.
  induction 1 as [|l ls Hl _ IH]; [reflexivity|].
  cbn [unlines]. revert Hl. unfold no_newline.
  induction l as [|c l IHl]; intros Hl.
  - cbn [append getlines]. rewrite Ascii.eqb_refl, IH. reflexivity.
  - cbn [has_newline] in Hl. apply orb_false_iff in Hl. destruct Hl as [Hc Hl].
    cbn [append]. rewrite (getlines_line c l (unlines ls) Hc).
    rewrite (IHl Hl). reflexivity.
Qed.

(** [std::getline] never delivers a line terminator. *)
Lemma getlines_no_newline (b : string) : Forall no_newline (getlines b).
Proof.
  induction b as [|c b IH]; cbn [getlines]; [constructor|].
  destruct (Ascii.eqb c newline) eqn:Hc.
  - constructor; [reflexivity | exact IH].
  - destruct (getlines b) as [|l ls].
    + constructor; [|constructor].
      unfold no_newline; cbn [has_newline]. rewrite Hc. reflexivity.
    + inversion IH as [|? ? Hl Hls]; subst.
      constructor; [|exact Hls].
      unfold no_newline in *; cbn [has_newline]. rewrite Hc, Hl. reflexivity.
Qed.

(** ** Index lines *)

Lemma string_of_uint_digits (u : Decimal.uint) :
  all_digits (DecimalString.NilEmpty.string_of_uint u).
Proof.
  induction u; intros c Hc; cbn in Hc;
    try contradiction;
    (destruct Hc as [<- | Hc]; [reflexivity | apply IHu, Hc]).
Qed.

Lemma to_uint_not_Nil (n : nat) : Nat.to_uint n <> Decimal.Nil.
Proof.
  rewrite <- (DecimalNat.Unsigned.of_to n) at 1.
  rewrite DecimalNat.Unsigned.to_of.
  apply DecimalFacts.unorm_nonnil.
Qed.

Lemma to_string_first_digit (i : nat) :
  exists c rest, to_string i = String c rest /\ is_digit c = true.
Proof.
  pose proof (string_of_uint_digits (Nat.to_uint i)) as Hd.
  pose proof (to_uint_not_Nil i) as Hn.
  unfold to_string in *.
  destruct (Nat.to_uint i) eqn:E; try contradiction; cbn in *;
    eexists _, _; (split; [reflexivity | reflexivity]).
Qed.

Lemma digits_no_newline (s : string) : all_digits s -> no_newline s.
Proof.
  unfold all_digits, no_newline.
  induction s as [|c s IH]; intros H; cbn [has_newline]; [reflexivity|].
  rewrite IH by (intros x Hx; apply H; right; exact Hx).
  assert (Hc : is_digit c = true) by (apply H; left; reflexivity).
  destruct (Ascii.eqb_spec c newline) as [->|]; [discriminate Hc | reflexivity].
Qed.

Lemma index_line_keyword (i : nat) : keyword_regex (index_line i) = false.
Proof. reflexivity. Qed.

Lemma index_line_regex (i : nat) : snapshot_regex (index_line i) = true.
Proof.
  destruct (to_string_first_digit i) as (c & rest & E & Hc).
  unfold snapshot_regex, index_line. rewrite E.
  cbn. rewrite Hc. reflexivity.
Qed.

Lemma index_line_no_newline (i : nat) : no_newline (index_line i).
Proof.
  unfold no_newline, index_line. cbn.
  apply digits_no_newline, string_of_uint_digits.
Qed.

(* ================================================================== *)
(** * Parsing a serialized document *)

Section Reparse.

Variable P : string -> Prop.
Variable ih : bool.

Lemma step_keyword (h : string) (l : Loop) :
  keyword_regex h = true ->
  loop_body ih h l
  = Continue (mkLoop HEADER (snapshot l)
                (if ih then this l else push_header h (this l))).
Proof.
  intros K. unfold loop_body. rewrite K. reflexivity.
Qed.

(** The body lines of a committed snapshot are read as body lines again,
    and give the same key. *)
Lemma read_body (body : list string) (s0 : Snapshot) (d : MassifFile) :
  Forall (body_line_ok P) body ->
  read_loop ih body (mkLoop SNAPSHOT_CONTENT (Some s0) d)
  = Continue (mkLoop SNAPSHOT_CONTENT
                (Some (mkSnapshot (match last_time_capture body with
                                   | Some t => t
                                   | None => time s0
                                   end) (contents s0 ++ body))) d).
Proof.
  intros H. revert s0.
  induction H as [|b body (_ & K & Hm & Hf) _ IH]; intros s0.
  - cbn [read_loop last_time_capture]. rewrite app_nil_r.
    destruct s0; reflexivity.
  - cbn [read_loop last_time_capture].
    rewrite (step_body_line ih b s0 d K Hm Hf), IH.
    cbn [time contents]. rewrite <- app_assoc. cbn [app].
    destruct (last_time_capture body); reflexivity.
Qed.

Lemma read_block (k : nat) (s : Snapshot) (l : Loop) :
  status l = HEADER \/ status l = SNAPSHOT_CONTENT ->
  snapshot_ok P s ->
  read_loop ih (block k s) l
  = Continue (mkLoop SNAPSHOT_CONTENT (Some s) (finish l)).
Proof.
  intros Hst (Hc & Hb & Hk).
  change (block k s)
    with ([snapshot_mark; index_line k; snapshot_mark] ++ contents s).
  rewrite read_loop_app.
  rewrite (open_sequence ih (index_line k) l Hst
             (index_line_keyword k) (index_line_regex k)).
  rewrite (read_body (contents s) _ _ Hb). cbn [time contents app].
  fold (key_of_body (contents s)). rewrite <- Hk.
  destruct s; reflexivity.
Qed.

Lemma read_blocks (snaps : list Snapshot) (k : nat) (l : Loop) :
  status l = HEADER \/ status l = SNAPSHOT_CONTENT ->
  Forall (snapshot_ok P) snaps ->
  exists l',
    read_loop ih (List.concat (blocks_from k snaps)) l = Continue l'
    /\ finish l'
       = mkMassifFile (headers (finish l)) (snapshots (finish l) ++ snaps).
Proof.
  intros Hst H. revert k l Hst.
  induction H as [|s rest Hs _ IH]; intros k l Hst.
  - exists l. split; [reflexivity|].
    rewrite app_nil_r. destruct (finish l); reflexivity.
  - cbn [blocks_from List.concat]. rewrite read_loop_app.
    rewrite (read_block k s l Hst Hs).
    destruct (IH (S k) (mkLoop SNAPSHOT_CONTENT (Some s) (finish l))
                (or_intror eq_refl)) as (l' & Hl' & Hf).
    exists l'. split; [exact Hl'|].
    rewrite Hf. unfold finish at 1 3. cbn [snapshot this push_pending].
    destruct Hs as (Hc & _).
    destruct (contents s) eqn:E; [contradiction|].
    cbn [headers snapshots]. rewrite <- app_assoc. reflexivity.
Qed.

End Reparse.

Lemma read_headers (hs : list string) (P : string -> Prop) (st : LastLine)
    (d : MassifFile) :
  Forall (header_ok P) hs ->
  read_loop false hs (mkLoop st None d)
  = Continue (mkLoop (match hs with [] => st | _ :: _ => HEADER end) None
                (mkMassifFile (headers d ++ hs) (snapshots d))).
Proof.
  intros H. revert st d.
  induction H as [|h hs (_ & K) _ IH]; intros st d.
  - cbn [read_loop]. rewrite app_nil_r. destruct d; reflexivity.
  - cbn [read_loop]. rewrite (step_keyword false h _ K), IH.
    cbn [snapshot this push_header headers snapshots].
    rewrite <- app_assoc. destruct hs; reflexivity.
Qed.

(** The lines of a serialized document parse, from an empty object, into
    the document that was serialized. *)
Lemma parse_output_lines (P : string -> Prop) (m : MassifFile) :
  parsed_file P m -> ~ is_empty m ->
  appendLines false (output_lines (headers m) (snapshots m)) empty_file
  = (Returned 0, m).
Proof.
  intros (Hh & Hs & Hne) Hm.
  assert (Hhs : headers m <> []).
  { intros E. apply Hm. split; [exact E|].
    destruct (snapshots m) eqn:Es; [reflexivity|].
    exfalso. apply Hne; [discriminate | exact E]. }
  unfold appendLines, output_lines.
  rewrite read_loop_app, (read_headers _ P NONE empty_file Hh).
  cbn [headers snapshots empty_file app].
  destruct (headers m) as [|h hs] eqn:E; [contradiction|].
  destruct (read_blocks P false (snapshots m) 0
              (mkLoop HEADER None (mkMassifFile (h :: hs) []))
              (or_introl eq_refl) Hs) as (l' & -> & Hf).
  unfold finish in Hf. rewrite Hf. cbn. rewrite <- E.
  destruct m; reflexivity.
Qed.

(* ================================================================== *)
(** * The combiner keeps the document parsed *)

Lemma parsed_file_empty (P : string -> Prop) : parsed_file P empty_file.
Proof.
  split; [constructor | split; [constructor|]].
  intros H. exfalso. apply H. reflexivity.
Qed.

Lemma add_parsed (fs : FileSystem) (path : string) (m : MassifFile) :
  parsed_file no_newline m -> parsed_file no_newline (snd (add fs path m)).
Proof.
  intros (Hh & Hs & Hne). unfold add, appendFile.
  destruct (fs path) as [b|]; [|repeat split; assumption].
  set (ih := negb (Nat.eqb (List.length (headers m)) 0)).
  destruct (appendLines_grown no_newline m ih (getlines b)
              (getlines_no_newline b))
    as (newh & new & (Eh & Es & Fh & Fs & Hih) & Hnew).
  unfold added_by in Es.
  split; [rewrite Eh; apply Forall_app; split; assumption|].
  split; [rewrite Es; apply Forall_app; split; assumption|].
  rewrite Eh, Es. intros Hsn Hhd.
  apply app_eq_nil in Hhd. destruct Hhd as [Hhm Hnh].
  assert (Hfalse : ih = false) by (unfold ih; rewrite Hhm; reflexivity).
  assert (Hsm : snapshots m = []).
  { destruct (snapshots m) eqn:E; [reflexivity|].
    exfalso. apply Hne; [discriminate | exact Hhm]. }
  rewrite Hsm in Hsn. cbn [app] in Hsn.
  exact (Hnew Hfalse Hsn Hnh).
Qed.

Lemma add_loop_parsed (fs : FileSystem) (paths : list string) (ret : Z)
    (m : MassifFile) :
  parsed_file no_newline m ->
  parsed_file no_newline (snd (add_loop fs paths ret m)).
Proof.
  revert ret m; induction paths as [|path rest IH]; intros ret m Hm;
    cbn [add_loop]; [exact Hm|].
  pose proof (add_parsed fs path m Hm) as H1.
  destruct (add fs path m) as [[r|] m1]; cbn [snd] in *;
    [apply IH, H1 | exact H1].
Qed.

Lemma output_lines_no_newline (m : MassifFile) :
  parsed_file no_newline m ->
  Forall no_newline (output_lines (headers m) (snapshots m)).
Proof.
  intros (Hh & Hs & _). unfold output_lines. apply Forall_app; split.
  - eapply Forall_impl; [|exact Hh]. intros h (H & _). exact H.
  - generalize 0 as k. induction Hs as [|s rest (_ & Hb & _) _ IH]; intros k;
      cbn [blocks_from List.concat]; [constructor|].
    apply Forall_app; split; [|apply IH].
    unfold block.
    constructor; [reflexivity|].
    constructor; [apply index_line_no_newline|].
    constructor; [reflexivity|].
    eapply Forall_impl; [|exact Hb]. intros b (H & _). exact H.
Qed.

Lemma parsed_file_sorted {S : StdSort} (m : MassifFile) :
  parsed_file no_newline m ->
  parsed_file no_newline (mkMassifFile (headers m) (std_sort (snapshots m))).
Proof.
  intros (Hh & Hs & Hne). cbn [parsed_file headers snapshots].
  split; [exact Hh | split].
  - eapply Permutation_Forall; [apply std_sort_permutation | exact Hs].
  - intros Hx. apply Hne. intros E. apply Hx.
    pose proof (std_sort_permutation (snapshots m)) as Hp.
    rewrite E in Hp. apply Permutation_nil in Hp.
    cbn [snapshots]. rewrite E. exact Hp.
Qed.

(** Parsing the destination of a [write] that returned 0, as the only
    source of an empty object, gives back the object [write] left. *)
Lemma add_written {S : StdSort} (sink : Sink) (path : string)
    (m m' : MassifFile) (fs fs' : FileSystem) :
  parsed_file no_newline m ->
  write sink path m fs = (0%Z, m', fs') ->
  add fs' path empty_file = (Returned 0, m').
Proof.
  intros Hm Hw.
  destruct (write_success _ _ _ _ _ _ Hw) as (Hne & Hm' & Hfs').
  pose proof (parsed_file_sorted m Hm) as Hp. rewrite <- Hm' in Hp.
  assert (Hne' : ~ is_empty m').
  { intros [E1 E2]. apply Hne. subst m'. cbn [headers snapshots] in *.
    split; [exact E1|].
    pose proof (std_sort_permutation (snapshots m)) as Hperm.
    rewrite E2 in Hperm. apply Permutation_sym, Permutation_nil in Hperm.
    exact Hperm. }
  unfold add, appendFile. rewrite Hfs', store_same.
  rewrite (getlines_unlines _ (output_lines_no_newline m' Hp)).
  cbn [empty_file headers List.length Nat.eqb negb].
  apply (parse_output_lines no_newline m' Hp Hne').
Qed.

(* ================================================================== *)
(** * Round trip: claim C5 *)

(** C5. Let D be a document that a combine which returned (with 0, or with
    the code of a source that failed) built from an empty object, and let D
    not be empty.  On a destination where nothing fails [write] returns 0;
    and whenever [write] returns 0, parsing its destination as the only
    source of a fresh document returns 0 and yields the document [write]
    left, whose [(chronological_key, body)] pairs are those of D, rearranged. *)
Theorem reparse_round_trip {S : StdSort} (fs fs0 : FileSystem)
    (paths : list string) (r : Z) (D : MassifFile) (path : string) :
  add_range fs paths empty_file = (Returned r, D) ->
  ~ is_empty D ->
  (exists D' fs', write sound_sink path D fs0 = (0%Z, D', fs'))
  /\ forall sink D' fs',
       write sink path D fs0 = (0%Z, D', fs') ->
       exists R,
         add fs' path empty_file = (Returned 0, R)
         /\ headers R = headers D
         /\ Permutation (key_body_pairs D) (key_body_pairs R).
Proof.
  intros Hadd Hne.
  assert (HD : parsed_file no_newline D).
  { pose proof (add_loop_parsed fs paths 0 empty_file
                  (parsed_file_empty no_newline)) as H.
    unfold add_range in Hadd. rewrite Hadd in H. exact H. }
  split.
  - eexists _, _. apply write_sound_sink, Hne.
  - intros sink D' fs' Hw. exists D'.
    split; [exact (add_written sink path D D' fs0 fs' HD Hw)|].
    destruct (write_success _ _ _ _ _ _ Hw) as (_ & -> & _).
    split; [reflexivity|].
    unfold key_body_pairs. cbn [snapshots].
    apply Permutation_map, std_sort_permutation.
Qed.

Lemma reparse_round_trip_witness :
  (exists D' fs',
      write sound_sink "out" (mkMassifFile ["desc: x"%string]
                                [snapshot_A; snapshot_B]) files_A_B_headed
      = (0%Z, D', fs'))
  /\ forall sink D' fs',
       write sink "out" (mkMassifFile ["desc: x"%string]
                           [snapshot_A; snapshot_B]) files_A_B_headed
       = (0%Z, D', fs') ->
       exists R,
         add fs' "out" empty_file = (Returned 0, R)
         /\ headers R = ["desc: x"%string]
         /\ Permutation
              (key_body_pairs (mkMassifFile ["desc: x"%string]
                                 [snapshot_A; snapshot_B]))
              (key_body_pairs R).
Proof.
  apply (reparse_round_trip files_A_B_headed files_A_B_headed
           ["A"; "B"]%string 0%Z
           (mkMassifFile ["desc: x"%string] [snapshot_A; snapshot_B]) "out").
  - reflexivity.
  - intros [H _]. discriminate H.
Defined.

(* ================================================================== *)
(** * The end-to-end example: claim C1 *)

Lemma std_sort_one {S : StdSort} (a : Snapshot) : std_sort [a] = [a].
Proof.
  apply Permutation_length_1_inv, std_sort_permutation.
Qed.

Lemma std_sort_two {S : StdSort} (a b : Snapshot) :
  (time b < time a)%Z -> std_sort [a; b] = [b; a].
Proof.
  intros Hlt.
  pose proof (std_sort_sorted [a; b]) as Hs.
  destruct (Permutation_length_2_inv (std_sort_permutation [a; b])) as [E|E];
    [|exact E].
  rewrite E in Hs. inversion Hs as [|? ? _ Hall]; subst.
  inversion Hall as [|? ? Hab _]; subst.
  unfold time_le in Hab. lia.
Qed.

(** C1, as stated, fails: [file_B] has no keyword line, so its block is
    never read; the output has the header and one block, that of A, and is
    not the text the specification gives. *)
Lemma headerless_source_is_dropped :
  add_range files_A_B ["A"; "B"]%string empty_file
  = (Returned 0, mkMassifFile ["desc: x"%string] [snapshot_A])
  /\ write sound_sink "out" (mkMassifFile ["desc: x"%string] [snapshot_A])
       files_A_B
     = (0%Z, mkMassifFile ["desc: x"%string] [snapshot_A],
        store files_A_B "out"
          (unlines ["desc: x"; snapshot_mark; "snapshot=0"; snapshot_mark;
                    "time=100"; "mem_heap_B=10"]%string))
  /\ unlines ["desc: x"; snapshot_mark; "snapshot=0"; snapshot_mark;
              "time=100"; "mem_heap_B=10"]%string
     <> unlines (output_lines ["desc: x"%string] [snapshot_B; snapshot_A]).
Proof.
  split; [reflexivity | split; [reflexivity|]].
  intros H. vm_compute in H. discriminate H.
Qed.

(** C1, amended. With A as described and B without a header, combining
    [A, B] and serializing gives the header [desc: x] and a single block,
    snapshot 0, with the body of A: the block of B is not read, because no
    keyword line precedes it.  When B starts with a keyword line ([cmd: y]),
    the output is the one of the specification: the header [desc: x] only,
    snapshot 0 with the [time=50] body and snapshot 1 with the [time=100]
    body.  This holds for every [std::sort]. *)
Theorem end_to_end_example {S : StdSort} :
  (add_range files_A_B ["A"; "B"]%string empty_file
   = (Returned 0, mkMassifFile ["desc: x"%string] [snapshot_A])
   /\ write sound_sink "out" (mkMassifFile ["desc: x"%string] [snapshot_A])
        files_A_B
      = (0%Z, mkMassifFile ["desc: x"%string] [snapshot_A],
         store files_A_B "out"
           (unlines ["desc: x"; snapshot_mark; "snapshot=0"; snapshot_mark;
                     "time=100"; "mem_heap_B=10"]%string)))
  /\ (add_range files_A_B_headed ["A"; "B"]%string empty_file
      = (Returned 0, mkMassifFile ["desc: x"%string] [snapshot_A; snapshot_B])
      /\ write sound_sink "out"
           (mkMassifFile ["desc: x"%string] [snapshot_A; snapshot_B])
           files_A_B_headed
         = (0%Z, mkMassifFile ["desc: x"%string] [snapshot_B; snapshot_A],
            store files_A_B_headed "out"
              (unlines ["desc: x"; snapshot_mark; "snapshot=0"; snapshot_mark;
                        "time=50"; "mem_heap_B=5";
                        snapshot_mark; "snapshot=1"; snapshot_mark;
                        "time=100"; "mem_heap_B=10"]%string))).
Proof.
  split; (split; [reflexivity|]).
  - rewrite write_sound_sink by (intros [H _]; discriminate H).
    cbn [headers snapshots]. rewrite std_sort_one. reflexivity.
  - rewrite write_sound_sink by (intros [H _]; discriminate H).
    cbn [headers snapshots].
    rewrite (std_sort_two snapshot_A snapshot_B) by reflexivity.
    reflexivity.
Qed.

(* ================================================================== *)
(** * The combiner: claim C6 *)

(** C6 at a source whose key does not fit an [int]: [std::stoi] raises
    [std::out_of_range] in the first source, nothing catches it, and the
    second source, which parses well on its own, is never attempted. *)
Theorem key_overflow_aborts_combine :
  add_range files_long_run ["A"; "B"]%string empty_file
  = (Thrown, mkMassifFile ["desc: x"%string] [])
  /\ add files_long_run "B" (mkMassifFile ["desc: x"%string] [])
     = (Returned 0, mkMassifFile ["desc: x"%string] [snapshot_B]).
Proof.
  split; reflexivity.
Qed.

(** When no source raises, the loop of [add] attempts every source in
    order and returns the last code that is not 0. *)
Lemma add_loop_attempted (fs : FileSystem) (paths : list string) :
  forall (ret0 : Z) (m : MassifFile) (ret : Z) (m' : MassifFile),
    add_loop fs paths ret0 m = (Returned ret, m') <->
    exists codes,
      attempted fs paths m codes m'
      /\ ret = if (last_error codes =? 0)%Z then ret0 else last_error codes.
Proof.
  induction paths as [|path rest IH]; intros ret0 m ret m'; cbn [add_loop].
  - split.
    + intros H; inversion H; subst. exists []. split; [constructor | reflexivity].
    + intros (codes & Ha & ->). inversion Ha; subst. reflexivity.
  - split.
    + destruct (add fs path m) as [[r|] m1] eqn:E; [|intros H; discriminate H].
      intros H. apply IH in H. destruct H as (codes & Ha & ->).
      exists (r :: codes). split; [econstructor; eassumption|].
      cbn [last_error].
      destruct (last_error codes =? 0)%Z eqn:El; [reflexivity|].
      rewrite El. reflexivity.
    + intros (codes & Ha & ->). inversion Ha as [|? ? ? m1 ? r cs E Hr]; subst.
      rewrite E. apply IH. exists cs. split; [exact Hr|].
      cbn [last_error].
      destruct (last_error cs =? 0)%Z eqn:El; [reflexivity|].
      rewrite El. reflexivity.
Qed.

Lemma last_error_zero (codes : list Z) :
  Forall (fun r => r = 0%Z) codes -> last_error codes = 0%Z.
Proof.
  induction 1 as [|r rest Hr _ IH]; cbn [last_error]; [reflexivity|].
  rewrite IH. cbn. exact Hr.
Qed.

Lemma last_error_last (pre post : list Z) (r : Z) :
  r <> 0%Z -> Forall (fun x => x = 0%Z) post ->
  last_error (pre ++ r :: post) = r.
Proof.
  intros Hr Hpost. induction pre as [|x pre IH]; cbn [app last_error].
  - rewrite (last_error_zero post Hpost). reflexivity.
  - rewrite IH. apply Z.eqb_neq in Hr. rewrite Hr. reflexivity.
Qed.

(** X1. Best-effort aggregation (the policy C6 describes), for the sources
    that return a code: [add] over a range returns exactly when every source,
    attempted in order on the document the one before left, returns; its
    result is then 0 when every code is 0, and otherwise the code of the
    last source whose code is not 0. *)
Theorem best_effort_aggregation (fs : FileSystem) (paths : list string)
    (m : MassifFile) :
  (forall ret m',
      add_range fs paths m = (Returned ret, m') <->
      exists codes, attempted fs paths m codes m' /\ ret = last_error codes)
  /\ (forall codes, Forall (fun r => r = 0%Z) codes -> last_error codes = 0%Z)
  /\ (forall pre r post,
        r <> 0%Z -> Forall (fun x => x = 0%Z) post ->
        last_error (pre ++ r :: post) = r).
Proof.
  split; [|split; [exact last_error_zero|]].
  - intros ret m'. unfold add_range. rewrite add_loop_attempted.
    split; intros (codes & Ha & ->); exists codes; (split; [exact Ha|]);
      destruct (last_error codes =? 0)%Z eqn:E;
      try reflexivity; apply Z.eqb_eq in E; congruence.
  - intros pre r post. apply last_error_last.
Qed.

(** X2. Header precedence: once the document holds a header, a later
    source adds none, however its parse ends. *)
Theorem later_sources_add_no_header (fs : FileSystem) (path : string)
    (m : MassifFile) :
  headers m <> [] -> headers (snd (add fs path m)) = headers m.
Proof.
  intros H. unfold add, appendFile.
  destruct (fs path) as [b|]; [|reflexivity].
  destruct (headers m) as [|h hs] eqn:E; [contradiction|].
  cbn [List.length Nat.eqb negb].
  destruct (appendLines_grown (fun _ => True) m true (getlines b))
    as (newh & new & (Eh & _ & _ & _ & Hih) & _).
  { apply Forall_forall; intros; exact I. }
  rewrite Eh, (Hih eq_refl), app_nil_r. exact E.
Qed.

Lemma later_sources_add_no_header_witness :
  headers (snd (add files_A_B_headed "B" (mkMassifFile ["desc: x"%string] [])))
  = headers (mkMassifFile ["desc: x"%string] []).
Proof.
  apply (later_sources_add_no_header files_A_B_headed "B"
           (mkMassifFile ["desc: x"%string] [])).
  discriminate.
Defined.

(* ================================================================== *)
(** * Further properties of the parser *)

Lemma is_digit_value (c : ascii) :
  is_digit c = true -> (0 <= digit_value c <= 9)%Z.
Proof.
  destruct c as [[] [] [] [] [] [] [] []]; intros H;
    try discriminate H; vm_compute; split; intros H'; discriminate H'.
Qed.

Lemma decimal_value_leading_digits (r : string) (acc : Z) :
  (0 <= acc)%Z -> (0 <= decimal_value acc (leading_digits r))%Z.
Proof.
  revert acc; induction r as [|c r IH]; intros acc Hacc;
    cbn [leading_digits decimal_value]; [exact Hacc|].
  destruct (is_digit c) eqn:Hc; cbn [decimal_value]; [|exact Hacc].
  apply IH. pose proof (is_digit_value c Hc). lia.
Qed.

Lemma search_literal_digits_digits (lit s ds : string) :
  search_literal_digits lit s = Some ds -> exists r, ds = leading_digits r.
Proof.
  induction s as [|c s IH]; cbn [search_literal_digits];
    unfold literal_digits_here.
  - destruct (strip_literal lit EmptyString) as [r|]; [|intros H; discriminate H].
    destruct (leading_digits r) eqn:E; intros H; inversion H; subst.
    exists r. symmetry. exact E.
  - destruct (strip_literal lit (String c s)) as [r|]; [|exact IH].
    destruct (leading_digits r) eqn:E; [exact IH|].
    intros H; inversion H; subst. exists r. symmetry. exact E.
Qed.

Lemma time_capture_nonneg (str : string) (t : Z) :
  time_capture str = Some t -> (0 <= t)%Z.
Proof.
  unfold time_capture, snapshot_time_regex.
  destruct (search_literal_digits "time=" str) as [ds|] eqn:E;
    [|intros H; discriminate H].
  intros H; inversion H; subst.
  destruct (search_literal_digits_digits _ _ _ E) as (r & ->).
  apply decimal_value_leading_digits. lia.
Qed.

Lemma last_time_capture_In (body : list string) (t : Z) :
  last_time_capture body = Some t ->
  exists b, In b body /\ time_capture b = Some t.
Proof.
  induction body as [|x body IH]; cbn [last_time_capture];
    [intros H; discriminate H|].
  destruct (last_time_capture body) as [t'|].
  - intros H; inversion H; subst.
    destruct (IH eq_refl) as (b & Hb & Ht). exists b. split; [right|]; assumption.
  - intros H. exists x. split; [left; reflexivity | exact H].
Qed.

(** X3. The key of every snapshot a parse commits lies between 0 and
    [INT_MAX], however the parse ends. *)
Theorem parsed_keys_fit_int (ih : bool) (lines : list string) (m : MassifFile) :
  exists new,
    added_by m (snd (appendLines ih lines m)) new
    /\ Forall (fun s => (0 <= time s <= INT_MAX)%Z) new.
Proof.
  destruct (appendLines_grown (fun _ => True) m ih lines) as
    (newh & new & (_ & Hs & _ & Fs & _) & _).
  { apply Forall_forall; intros; exact I. }
  exists new. split; [exact Hs|].
  eapply Forall_impl; [|exact Fs].
  intros s (_ & Hb & Hk). rewrite Hk. unfold key_of_body.
  destruct (last_time_capture (contents s)) as [t|] eqn:E;
    [|unfold INT_MAX; lia].
  destruct (last_time_capture_In _ _ E) as (b & Hin & Hcap).
  rewrite Forall_forall in Hb. destruct (Hb b Hin) as (_ & _ & _ & Hf).
  unfold fits_int in Hf. rewrite Hcap in Hf.
  split; [exact (time_capture_nonneg b t Hcap) | exact Hf].
Qed.

Lemma push_pending_headers (p : option Snapshot) (m : MassifFile) :
  headers (push_pending p m) = headers m.
Proof.
  destruct p as [s|]; cbn [push_pending]; [|reflexivity].
  destruct (contents s); reflexivity.
Qed.

Lemma loop_body_headers (ih : bool) (str : string) (l l' : Loop) :
  loop_body ih str l = Continue l' ->
  headers (this l')
  = headers (this l)
    ++ (if ih then [] else if keyword_regex str then [str] else []).
Proof.
  destruct l as [st p d]. unfold loop_body; cbn [status snapshot this].
  destruct (keyword_regex str).
  - intros H; inversion H; subst; cbn [this].
    destruct ih; [rewrite app_nil_r|]; reflexivity.
  - assert (E : (if ih then @nil string else []) = []) by (destruct ih; reflexivity).
    rewrite E, app_nil_r.
    destruct st, (String.eqb str snapshot_mark), (snapshot_regex str), p;
      cbn -[push_pending]; try destruct (snapshot_time_regex str);
      try destruct (stoi _);
      intros H; inversion H; subst; cbn [this];
      first [ reflexivity
            | apply push_pending_headers
            | exact (push_pending_headers (Some _) _) ].
Qed.

Lemma read_loop_headers (ih : bool) (lines : list string) (l l' : Loop) :
  read_loop ih lines l = Continue l' ->
  headers (this l')
  = headers (this l) ++ (if ih then [] else filter keyword_regex lines).
Proof.
  revert l; induction lines as [|str lines IH]; intros l; cbn [read_loop filter].
  - intros H; inversion H; subst. destruct ih; rewrite app_nil_r; reflexivity.
  - destruct (loop_body ih str l) as [l1|] eqn:E; [|intros H; discriminate H].
    intros H. rewrite (IH _ H), (loop_body_headers ih str l l1 E).
    rewrite <- app_assoc. destruct ih; [reflexivity|].
    destruct (keyword_regex str); reflexivity.
Qed.

(** X4. When a parse that captures headers returns, the headers it added
    are exactly the keyword lines of the source, in the order of the source
    and wherever they stand, inside a snapshot body too; a parse that does
    not capture headers adds none. *)
Theorem headers_are_the_keyword_lines (ih : bool) (lines : list string)
    (m m' : MassifFile) (code : Z) :
  appendLines ih lines m = (Returned code, m') ->
  headers m'
  = headers m ++ (if ih then [] else filter keyword_regex lines).
Proof.
  unfold appendLines.
  pose proof (read_loop_coherent ih lines (mkLoop NONE None m) eq_refl) as Hc.
  destruct (read_loop ih lines (mkLoop NONE None m)) as [l|o d] eqn:E.
  - intros H; inversion H; subst.
    rewrite push_pending_headers. exact (read_loop_headers ih lines _ l E).
  - subst o. intros H; discriminate H.
Qed.

Lemma headers_are_the_keyword_lines_witness :
  headers (mkMassifFile ["desc: x"; "cmd: y"]%string
             [mkSnapshot 1 ["time=1"%string]])
  = headers empty_file
    ++ (if false then []
        else filter keyword_regex
               ["desc: x"; snapshot_mark; "snapshot=0"; snapshot_mark;
                "time=1"; "cmd: y"; "mem_heap_B=10"]%string).
Proof.
  apply (headers_are_the_keyword_lines false
           ["desc: x"; snapshot_mark; "snapshot=0"; snapshot_mark;
            "time=1"; "cmd: y"; "mem_heap_B=10"]%string
           empty_file
           (mkMassifFile ["desc: x"; "cmd: y"]%string
              [mkSnapshot 1 ["time=1"%string]]) 0%Z).
  reflexivity.
Defined.

(** The loop body does the same to two loops that differ only in the
    header flag and in what the object held before. *)
Lemma loop_body_same_snapshots (ih ih0 : bool) (m : MassifFile) (str : string)
    (st : LastLine) (p : option Snapshot) (d d0 : MassifFile) :
  snapshots d = snapshots m ++ snapshots d0 ->
  match loop_body ih str (mkLoop st p d), loop_body ih0 str (mkLoop st p d0) with
  | Continue a, Continue b =>
      status a = status b /\ snapshot a = snapshot b
      /\ snapshots (this a) = snapshots m ++ snapshots (this b)
  | Exit o x, Exit o0 x0 =>
      o = o0 /\ snapshots x = snapshots m ++ snapshots x0
  | _, _ => False
  end.
Proof.
  intros H. unfold loop_body; cbn [status snapshot this].
  assert (Hpush : forall q,
             snapshots (push_pending q d)
             = snapshots m ++ snapshots (push_pending q d0)).
  { intros [s|]; cbn [push_pending]; [|exact H].
    destruct (contents s); [exact H|].
    cbn [snapshots]. rewrite H, app_assoc. reflexivity. }
  destruct (keyword_regex str).
  - destruct ih, ih0; cbn; auto.
  - destruct st, (String.eqb str snapshot_mark), (snapshot_regex str), p;
      cbn -[push_pending]; try destruct (snapshot_time_regex str);
      try destruct (stoi _); cbn -[push_pending]; auto.
Qed.

Lemma read_loop_same_snapshots (ih ih0 : bool) (m : MassifFile)
    (lines : list string) :
  forall l l0,
    status l = status l0 -> snapshot l = snapshot l0 ->
    snapshots (this l) = snapshots m ++ snapshots (this l0) ->
    match read_loop ih lines l, read_loop ih0 lines l0 with
    | Continue a, Continue b =>
        status a = status b /\ snapshot a = snapshot b
        /\ snapshots (this a) = snapshots m ++ snapshots (this b)
    | Exit o x, Exit o0 x0 =>
        o = o0 /\ snapshots x = snapshots m ++ snapshots x0
    | _, _ => False
    end.
Proof.
  induction lines as [|str lines IH]; intros l l0 Hst Hp Hs; cbn [read_loop].
  - auto.
  - destruct l as [st p d], l0 as [st0 p0 d0]. cbn in Hst, Hp, Hs. subst st0 p0.
    pose proof (loop_body_same_snapshots ih ih0 m str st p d d0 Hs) as H.
    destruct (loop_body ih str (mkLoop st p d)) as [a|o x],
             (loop_body ih0 str (mkLoop st p d0)) as [b|o0 x0];
      try contradiction.
    + destruct H as (H1 & H2 & H3). apply IH; assumption.
    + exact H.
Qed.

Lemma appendLines_same_snapshots (ih ih0 : bool) (lines : list string)
    (m : MassifFile) :
  fst (appendLines ih lines m) = fst (appendLines ih0 lines empty_file)
  /\ snapshots (snd (appendLines ih lines m))
     = snapshots m ++ snapshots (snd (appendLines ih0 lines empty_file)).
Proof.
  unfold appendLines.
  pose proof (read_loop_same_snapshots ih ih0 m lines
                (mkLoop NONE None m) (mkLoop NONE None empty_file)
                eq_refl eq_refl) as H.
  cbn [this snapshots empty_file] in H. rewrite app_nil_r in H.
  specialize (H eq_refl).
  destruct (read_loop ih lines (mkLoop NONE None m)) as [a|o x],
           (read_loop ih0 lines (mkLoop NONE None empty_file)) as [b|o0 x0];
    try contradiction; cbn [fst snd].
  - destruct H as (_ & Hp & Hs). split; [reflexivity|].
    rewrite Hp. destruct (snapshot b) as [s|]; cbn [push_pending]; [|exact Hs].
    destruct (contents s); [exact Hs|].
    cbn [snapshots]. rewrite Hs, app_assoc. reflexivity.
  - exact H.
Qed.

Lemma add_same_snapshots (fs : FileSystem) (path : string) (m : MassifFile) :
  fst (add fs path m) = fst (add fs path empty_file)
  /\ snapshots (snd (add fs path m))
     = snapshots m ++ snapshots (snd (add fs path empty_file)).
Proof.
  unfold add, appendFile. destruct (fs path) as [b|].
  - apply appendLines_same_snapshots.
  - cbn. rewrite app_nil_r. split; reflexivity.
Qed.

Lemma add_loop_snapshots (fs : FileSystem) (paths : list string) :
  forall ret0 m ret m',
    add_loop fs paths ret0 m = (Returned ret, m') ->
    snapshots m'
    = snapshots m
      ++ flat_map (fun path => snapshots (snd (add fs path empty_file))) paths.
Proof.
  induction paths as [|path rest IH]; intros ret0 m ret m';
    cbn [add_loop flat_map].
  - intros H; inversion H; subst. rewrite app_nil_r. reflexivity.
  - destruct (add_same_snapshots fs path m) as [_ Hs].
    destruct (add fs path m) as [[r|] m1]; [|intros H; discriminate H].
    intros H. rewrite (IH _ _ _ _ H). cbn [snd] in Hs.
    rewrite Hs, <- app_assoc. reflexivity.
Qed.

(** X5. What a source contributes does not depend on the document it is
    added to: [add] ends the same way and appends the same snapshots as on
    an empty document.  So the snapshots of a combine that returns are the
    snapshots of its sources, each parsed alone, one source after another. *)
Theorem combine_concatenates_sources (fs : FileSystem) :
  (forall path m,
      fst (add fs path m) = fst (add fs path empty_file)
      /\ snapshots (snd (add fs path m))
         = snapshots m ++ snapshots (snd (add fs path empty_file)))
  /\ forall paths m ret m',
       add_range fs paths m = (Returned ret, m') ->
       snapshots m'
       = snapshots m
         ++ flat_map (fun path => snapshots (snd (add fs path empty_file)))
              paths.
Proof.
  split; [intros path m; apply add_same_snapshots|].
  intros paths m ret m'. unfold add_range. apply add_loop_snapshots.
Qed.

Lemma combine_concatenates_sources_witness :
  snapshots (mkMassifFile ["desc: x"%string] [snapshot_A; snapshot_B])
  = snapshots empty_file
    ++ flat_map (fun path => snapshots (snd (add files_A_B_headed path empty_file)))
         ["A"; "B"]%string.
Proof.
  apply (proj2 (combine_concatenates_sources files_A_B_headed)
           ["A"; "B"]%string empty_file 0%Z
           (mkMassifFile ["desc: x"%string] [snapshot_A; snapshot_B])).
  reflexivity.
Defined.

Lemma stoi_None (digits : string) :
  stoi digits = None -> (INT_MAX < decimal_value 0 digits)%Z.
Proof.
  unfold stoi.
  destruct (Z.leb_spec (decimal_value 0 digits) INT_MAX) as [Hle|Hgt];
    [intros H; discriminate H | intros _; exact Hgt].
Qed.

Lemma loop_body_thrown (ih : bool) (str : string) (l : Loop) (d : MassifFile) :
  loop_body ih str l = Exit Thrown d ->
  exists t, time_capture str = Some t /\ (INT_MAX < t)%Z.
Proof.
  destruct l as [st p d0]. unfold loop_body, time_capture;
    cbn [status snapshot this].
  destruct (keyword_regex str); [intros H; discriminate H|].
  destruct st, (String.eqb str snapshot_mark), (snapshot_regex str), p;
    cbn -[push_pending stoi]; try (intros H; discriminate H).
  all: destruct (snapshot_time_regex str) as [ds|];
    try (intros H; discriminate H).
  all: destruct (stoi ds) eqn:Hs; try (intros H; discriminate H);
    intros _; eexists; split; [reflexivity | apply stoi_None, Hs].
Qed.

Lemma read_loop_thrown (ih : bool) (lines : list string) (l : Loop)
    (d : MassifFile) :
  read_loop ih lines l = Exit Thrown d ->
  exists str t, In str lines /\ time_capture str = Some t /\ (INT_MAX < t)%Z.
Proof.
  revert l; induction lines as [|str lines IH]; intros l; cbn [read_loop].
  - intros H; discriminate H.
  - destruct (loop_body ih str l) as [l1|o x] eqn:E.
    + intros H. destruct (IH _ H) as (s & t & Hin & Ht).
      exists s, t. split; [right; exact Hin | exact Ht].
    + intros H; inversion H; subst.
      destruct (loop_body_thrown ih str l d E) as (t & Ht).
      exists str, t. split; [left; reflexivity | exact Ht].
Qed.

(** X6. A parse is left by the exception of [std::stoi] only when some line
    of the source carries a [time=] integer above [INT_MAX]; on a source all
    of whose [time=] integers fit an [int] the parse returns 0. *)
Theorem parse_returns_when_keys_fit (ih : bool) (lines : list string)
    (m : MassifFile) :
  (fst (appendLines ih lines m) = Thrown ->
   exists str t,
     In str lines /\ time_capture str = Some t /\ (INT_MAX < t)%Z)
  /\ (Forall fits_int lines -> fst (appendLines ih lines m) = Returned 0).
Proof.
  assert (H1 : fst (appendLines ih lines m) = Thrown ->
               exists str t,
                 In str lines /\ time_capture str = Some t /\ (INT_MAX < t)%Z).
  { unfold appendLines.
    destruct (read_loop ih lines (mkLoop NONE None m)) as [l|o d] eqn:E;
      cbn [fst]; [intros H; discriminate H|].
    intros ->. exact (read_loop_thrown ih lines _ d E). }
  split; [exact H1|].
  intros Hfit.
  destruct (appendLines_outcome ih lines m) as [H|H]; [exact H|].
  destruct (H1 H) as (str & t & Hin & Ht & Hgt).
  rewrite Forall_forall in Hfit. specialize (Hfit str Hin).
  unfold fits_int in Hfit. rewrite Ht in Hfit. lia.
Qed.

Lemma parse_returns_when_keys_fit_witness :
  fst (appendLines false
         ["desc: x"; snapshot_mark; "snapshot=0"; snapshot_mark;
          "time=2147483647"]%string empty_file) = Returned 0.
Proof.
  apply (proj2 (parse_returns_when_keys_fit false
                  ["desc: x"; snapshot_mark; "snapshot=0"; snapshot_mark;
                   "time=2147483647"]%string empty_file)).
  repeat constructor; vm_compute; intros H; discriminate H.
Defined.

(* ================================================================== *)
(** * Further properties of the serializer and of the lines of a file *)

Lemma store_other (fs : FileSystem) (path content p : string) :
  p <> path -> store fs path content p = fs p.
Proof.
  intros H. unfold store. apply String.eqb_neq in H. rewrite H. reflexivity.
Qed.

Lemma empty_test_true (m : MassifFile) :
  Nat.leb (List.length (headers m)) 0
  && Nat.leb (List.length (snapshots m)) 0 = true ->
  is_empty m.
Proof.
  unfold is_empty. destruct (headers m), (snapshots m); cbn;
    intros H; try discriminate H; split; reflexivity.
Qed.

(** X7. What [write] returns and what it does to the object.  It returns
    -1 exactly on an empty document, and then the object and the file system
    are untouched; it returns 1 exactly when the document is not empty and
    the destination does not open, and then the file system is untouched.
    Whatever it returns, the headers of the object are kept and its
    snapshots only rearranged; unless it returns -1 they are left in the
    order of the sort, also when nothing could be written. *)
Theorem write_codes_and_object {S : StdSort} (sink : Sink) (path : string)
    (m m' : MassifFile) (fs fs' : FileSystem) (ret : Z) :
  write sink path m fs = (ret, m', fs') ->
  headers m' = headers m
  /\ Permutation (snapshots m) (snapshots m')
  /\ (ret = (-1)%Z <-> is_empty m)
  /\ (ret = 1%Z <-> ~ is_empty m /\ opens sink = false)
  /\ (ret = (-1)%Z \/ ret = 1%Z -> fs' = fs)
  /\ (ret = (-1)%Z -> m' = m)
  /\ (ret <> (-1)%Z -> StronglySorted time_le (snapshots m'))
  /\ In ret [(-1)%Z; 0%Z; 1%Z; 2%Z; 3%Z].
Proof.
  unfold write.
  destruct (Nat.leb (List.length (headers m)) 0
            && Nat.leb (List.length (snapshots m)) 0) eqn:E.
  { intros H; inversion H; subst; clear H.
    pose proof (empty_test_true m' E) as He.
    split; [reflexivity | split; [apply Permutation_refl | split]].
    { split; intros; [exact He | reflexivity]. }
    split; [split; [intros H; discriminate H | intros [Hn _]; contradiction]|].
    split; [intros; reflexivity | split; [intros; reflexivity | split]].
    - intros Hx; exfalso; apply Hx; reflexivity.
    - left; reflexivity. }
  pose proof (not_empty_test m E) as Hne.
  pose proof (std_sort_permutation (snapshots m)) as Hperm.
  pose proof (std_sort_sorted (snapshots m)) as Hsorted.
  assert (Hfinal : forall r (x : FileSystem),
             (r = 0 \/ r = 2 \/ r = 3 \/ (r = 1 /\ opens sink = false /\ x = fs))%Z ->
             (r = 1%Z -> opens sink = false) ->
             (opens sink = false -> r = 1%Z) ->
             (r, mkMassifFile (headers m) (std_sort (snapshots m)), x)
             = (ret, m', fs') ->
             headers m' = headers m
             /\ Permutation (snapshots m) (snapshots m')
             /\ (ret = (-1)%Z <-> is_empty m)
             /\ (ret = 1%Z <-> ~ is_empty m /\ opens sink = false)
             /\ (ret = (-1)%Z \/ ret = 1%Z -> fs' = fs)
             /\ (ret = (-1)%Z -> m' = m)
             /\ (ret <> (-1)%Z -> StronglySorted time_le (snapshots m'))
             /\ In ret [(-1)%Z; 0%Z; 1%Z; 2%Z; 3%Z]).
  { intros r x Hr Hr1 Hr1' H; inversion H; subst; clear H.
    cbn [headers snapshots].
    split; [reflexivity | split; [exact Hperm | split]].
    { split; [intros; exfalso; lia | intros He; exfalso; exact (Hne He)]. }
    split.
    { split; [intros Hx; split; [exact Hne | exact (Hr1 Hx)]
             | intros [_ Hx]; exact (Hr1' Hx)]. }
    split.
    { intros [Hx|Hx]; [exfalso; lia|].
      destruct Hr as [Hr|[Hr|[Hr|(_ & _ & Hr)]]]; try (exfalso; lia).
      exact Hr. }
    split; [intros; exfalso; lia|].
    split; [intros _; exact Hsorted|].
    cbn [In]. lia. }
  destruct (opens sink) eqn:Ho; cbn [negb].
  2: { intros H. eapply Hfinal; [| | |exact H]; auto.
       right; right; right. auto. }
  cbn [headers snapshots].
  assert (Hno1 : forall r : Z, (r = 0 \/ r = 2 \/ r = 3)%Z ->
                 (r = 1%Z -> true = false) /\ (true = false -> r = 1%Z)).
  { intros r Hr. split; [intros; exfalso; lia | intros Hx; discriminate Hx]. }
  destruct (good (writeList (mkStream true EmptyString (room sink))
                    (headers m))); cbn [negb].
  2: { intros H. eapply Hfinal; [| | |exact H];
         [lia | apply Hno1; lia | apply Hno1; lia]. }
  destruct (write_loop _ 0 (std_sort (snapshots m))) as [f2 [|]].
  2: { intros H. eapply Hfinal; [| | |exact H];
         [lia | apply Hno1; lia | apply Hno1; lia]. }
  destruct (closes sink); intros H;
    (eapply Hfinal; [| | |exact H];
       [lia | apply Hno1; lia | apply Hno1; lia]).
Qed.

(** The sample document on a destination that does not open: 1, the file
    system as it was, and the snapshots sorted all the same. *)
Lemma write_codes_and_object_witness :
  headers sample_sorted = headers sample_document
  /\ Permutation (snapshots sample_document) (snapshots sample_sorted)
  /\ (1%Z = 1%Z <->
      ~ is_empty sample_document /\ opens (mkSink false None true) = false)
  /\ StronglySorted time_le (snapshots sample_sorted).
Proof.
  pose proof (write_codes_and_object (mkSink false None true) "out"
                sample_document sample_sorted files_A_B files_A_B 1%Z eq_refl)
    as (H1 & H2 & _ & H4 & _ & _ & H7 & _).
  split; [exact H1 | split; [exact H2 | split; [exact H4|]]].
  apply H7. intros Hx; discriminate Hx.
Defined.

Lemma getlines_nil (b : string) : getlines b = [] -> b = EmptyString.
Proof.
  destruct b as [|c rest]; [reflexivity|]. cbn [getlines].
  destruct (Ascii.eqb c newline); [intros H; discriminate H|].
  destruct (getlines rest); intros H; discriminate H.
Qed.

Lemma unlines_getlines (b : string) :
  unlines (getlines b)
  = if terminated b then b else (b ++ String newline EmptyString)%string.
Proof.
  induction b as [|c rest IH]; [reflexivity|].
  cbn [getlines]. destruct (Ascii.eqb_spec c newline) as [->|Hc].
  - cbn [unlines append]. rewrite IH.
    destruct rest as [|d rest']; [reflexivity|].
    change (terminated (String newline (String d rest')))
      with (terminated (String d rest')).
    destruct (terminated (String d rest')); reflexivity.
  - destruct (getlines rest) as [|l ls] eqn:E.
    + apply getlines_nil in E. subst rest. cbn.
      apply Ascii.eqb_neq in Hc. rewrite Hc. reflexivity.
    + change (unlines (String c l :: ls)) with (String c (unlines (l :: ls))).
      rewrite IH.
      destruct rest as [|d rest']; [discriminate E|].
      change (terminated (String c (String d rest')))
        with (terminated (String d rest')).
      destruct (terminated (String d rest')); reflexivity.
Qed.

(** X8. Lines and bytes.  Reading back with [std::getline] what the output
    iterator wrote gives the lines written, provided none holds a line
    terminator; and writing the lines of a file reproduces the file when it
    is empty or ends with the terminator, and otherwise the file followed by
    the terminator it lacks. *)
Theorem lines_round_trip :
  (forall ls, Forall no_newline ls -> getlines (unlines ls) = ls)
  /\ (forall b,
        unlines (getlines b)
        = if terminated b then b else (b ++ String newline EmptyString)%string)
  /\ (forall b, Forall no_newline (getlines b)).
Proof.
  split; [exact getlines_unlines | split];
    [exact unlines_getlines | exact getlines_no_newline].
Qed.

(** X9. A keyword line inside a snapshot body is not a body line and ends
    the body: the lines that follow it, up to the next delimiter, are
    dropped, and at that delimiter the snapshot is committed with the lines
    read before the keyword line. *)
Theorem keyword_line_ends_body (ih : bool) (h : string) (junk : list string)
    (s : Snapshot) (d : MassifFile) :
  keyword_regex h = true ->
  Forall (fun str => keyword_regex str = false /\ str <> snapshot_mark) junk ->
  read_loop ih (h :: junk ++ [snapshot_mark])
    (mkLoop SNAPSHOT_CONTENT (Some s) d)
  = Continue (mkLoop SNAPSHOT_MARK None
                (push_pending (Some s) (if ih then d else push_header h d))).
Proof.
  intros K Hjunk. cbn [read_loop].
  unfold loop_body at 1. rewrite K. cbn [snapshot this].
  set (d' := if ih then d else push_header h d).
  induction Hjunk as [|str junk (Kstr & Hm) _ IH]; cbn [app read_loop].
  - rewrite (step_mark ih (mkLoop HEADER (Some s) d') (or_introl eq_refl)).
    reflexivity.
  - unfold loop_body at 1. rewrite Kstr. cbn [status].
    apply String.eqb_neq in Hm. rewrite Hm. cbn. exact IH.
Qed.

Lemma keyword_line_ends_body_witness :
  read_loop false
    ("cmd: y"%string :: ["mem_heap_B=10"; "mem_stacks_B=0"]%string
       ++ [snapshot_mark])
    (mkLoop SNAPSHOT_CONTENT (Some (mkSnapshot 1 ["time=1"%string]))
       (mkMassifFile ["desc: x"%string] []))
  = Continue (mkLoop SNAPSHOT_MARK None
                (push_pending (Some (mkSnapshot 1 ["time=1"%string]))
                   (if false then mkMassifFile ["desc: x"%string] []
                    else push_header "cmd: y"
                           (mkMassifFile ["desc: x"%string] [])))).
Proof.
  apply (keyword_line_ends_body false "cmd: y"
           ["mem_heap_B=10"; "mem_stacks_B=0"]%string
           (mkSnapshot 1 ["time=1"%string])
           (mkMassifFile ["desc: x"%string] [])).
  - reflexivity.
  - repeat constructor; intros H; discriminate H.
Defined.

(* ================================================================== *)
(** * The command line *)

Lemma fileExists_erase (kills : string -> string -> bool) (fs : FileSystem)
    (file p : string) :
  fileExists (erase kills fs file) p = negb (kills file p) && fileExists fs p.
Proof.
  unfold fileExists, erase. destruct (kills file p); reflexivity.
Qed.

Section DeleteFiles.

Variable kills : string -> string -> bool.
Variable locked : string -> bool.
Hypothesis kills_refl : forall p, kills p p = true.
Hypothesis kills_trans :
  forall a b c, kills a b = true -> kills b c = true -> kills a c = true.

Lemma deleteFiles_loop_spec (files : list string) :
  forall (ret : bool) (fs : FileSystem) (ok : bool) (fs' : FileSystem),
    deleteFiles_loop kills locked files ret fs = (ok, fs') ->
    (forall p, In p files -> locked p = false -> fs' p = None)
    /\ (forall p q, In p files -> locked p = false ->
                    fileExists fs p = true -> kills p q = true ->
                    fs' q = None)
    /\ (forall q, (forall p, In p files -> kills p q = false) -> fs' q = fs q)
    /\ (forall q, fs q = None -> fs' q = None)
    /\ (ok = true <->
        ret = true
        /\ ForallOrdPairs (fun p q => kills p q = false) files
        /\ Forall (fun p => fileExists fs p = true /\ locked p = false) files).
Proof.
  induction files as [|file rest IH]; intros ret fs ok fs';
    cbn [deleteFiles_loop].
  - intros H; inversion H; subst.
    split; [intros p []|]. split; [intros p q []|].
    split; [reflexivity|]. split; [intros q Hq; exact Hq|].
    split; [intros ->; repeat constructor | intros [H' _]; exact H'].
  - unfold remove.
    destruct (fs file) as [b|] eqn:Ef; [destruct (locked file) eqn:El|].
    + (* present, but the system refuses *)
      cbn. intros H. destruct (IH _ _ _ _ H) as (Ha & Ha' & Hb & Hm & Hd).
      split; [|split; [|split; [|split]]].
      * intros p [<-|Hin] Hl; [congruence | exact (Ha p Hin Hl)].
      * intros p q [<-|Hin] Hl He Hk; [congruence | exact (Ha' p q Hin Hl He Hk)].
      * intros q Hq. apply Hb. intros p Hin. apply Hq. right. exact Hin.
      * exact Hm.
      * split.
        -- intros Hok. apply Hd in Hok. destruct Hok as [Hx _]. discriminate Hx.
        -- intros (_ & _ & HF). inversion HF as [|? ? [_ Hx] _]; subst. congruence.
    + (* removed *)
      cbn. intros H. destruct (IH _ _ _ _ H) as (Ha & Ha' & Hb & Hm & Hd).
      assert (Hgone : forall q, kills file q = true -> fs' q = None).
      { intros q Hk. apply Hm. unfold erase. rewrite Hk. reflexivity. }
      split; [|split; [|split; [|split]]].
      * intros p [<-|Hin] Hl; [apply Hgone, kills_refl | exact (Ha p Hin Hl)].
      * intros p q [<-|Hin] Hl He Hk; [exact (Hgone q Hk)|].
        destruct (kills file p) eqn:Ekp.
        -- apply Hgone. exact (kills_trans _ _ _ Ekp Hk).
        -- apply (Ha' p q Hin Hl); [|exact Hk].
           rewrite fileExists_erase, Ekp, He. reflexivity.
      * intros q Hq.
        rewrite Hb by (intros p Hin; apply Hq; right; exact Hin).
        unfold erase. rewrite (Hq file (or_introl eq_refl)). reflexivity.
      * intros q Hq. apply Hm. unfold erase. rewrite Hq.
        destruct (kills file q); reflexivity.
      * rewrite Hd. split.
        -- intros (Hr & Hnd & HF). split; [exact Hr|].
           assert (Hnk : Forall (fun q => kills file q = false) rest).
           { eapply Forall_impl; [|exact HF]. intros p [Hx _].
             rewrite fileExists_erase in Hx.
             destruct (kills file p); [discriminate Hx | reflexivity]. }
           split; [constructor; assumption|].
           constructor.
           ++ split; [unfold fileExists; rewrite Ef; reflexivity | exact El].
           ++ eapply Forall_impl; [|exact HF].
              intros p [Hx Hl]. rewrite fileExists_erase in Hx.
              apply andb_true_iff in Hx. split; [apply Hx | exact Hl].
        -- intros (Hr & Hnd & HF). split; [exact Hr|].
           inversion Hnd as [|? ? Hnk Hnd']; subst.
           inversion HF as [|? ? _ HF']; subst.
           split; [exact Hnd'|].
           rewrite Forall_forall in *. intros p Hin.
           destruct (HF' p Hin) as [Hx Hl]. split; [|exact Hl].
           rewrite fileExists_erase, Hx, (Hnk p Hin). reflexivity.
    + (* absent *)
      cbn. intros H. destruct (IH _ _ _ _ H) as (Ha & Ha' & Hb & Hm & Hd).
      split; [|split; [|split; [|split]]].
      * intros p [<-|Hin] Hl; [exact (Hm _ Ef) | exact (Ha p Hin Hl)].
      * intros p q [<-|Hin] Hl He Hk; [|exact (Ha' p q Hin Hl He Hk)].
        unfold fileExists in He. rewrite Ef in He. discriminate He.
      * intros q Hq. apply Hb. intros p Hin. apply Hq. right. exact Hin.
      * exact Hm.
      * split.
        -- intros Hok. apply Hd in Hok. destruct Hok as [Hx _]. discriminate Hx.
        -- intros (_ & _ & HF). inversion HF as [|? ? [Hx _] _]; subst.
           unfold fileExists in Hx. rewrite Ef in Hx. discriminate Hx.
Qed.

End DeleteFiles.

Lemma same_entry_refl (p : string) : same_entry p p = true.
Proof. unfold same_entry. apply String.eqb_refl. Qed.

Lemma same_entry_trans (a b c : string) :
  same_entry a b = true -> same_entry b c = true -> same_entry a c = true.
Proof.
  unfold same_entry. rewrite !String.eqb_eq. congruence.
Qed.



Lemma string_length_app (a b : string) :
  String.length (a ++ b) = String.length a + String.length b.
Proof.
  induction a as [|x a IH]; cbn; [reflexivity | rewrite IH; reflexivity].
Qed.

Lemma string_get_app_right (a b : string) (k : nat) :
  String.get (String.length a + k) (a ++ b) = String.get k b.
Proof.
  induction a as [|x a IH]; cbn; [reflexivity | exact IH].
Qed.

Lemma string_get_app_left (a b : string) (k : nat) :
  k < String.length a -> String.get k (a ++ b) = String.get k a.
Proof.
  revert k; induction a as [|x a IH]; intros k Hk; cbn in *; [lia|].
  destruct k as [|k]; [reflexivity|]. apply IH. lia.
Qed.

Lemma substring_prefix (a b : string) :
  substring 0 (String.length a) (a ++ b) = a.
Proof.
  induction a as [|x a IH]; cbn.
  - destruct b; reflexivity.
  - rewrite IH. reflexivity.
Qed.

Lemma char_is_last (s : string) (c : ascii) :
  char_is (String.length s - 1) s c = ends_with c s.
Proof.
  unfold char_is. induction s as [|x s IH]; [reflexivity|].
  destruct s as [|y s']; [reflexivity|].
  change (ends_with c (String x (String y s'))) with (ends_with c (String y s')).
  rewrite <- IH. cbn. rewrite Nat.sub_0_r. reflexivity.
Qed.

Lemma chomp_crlf (name : string) :
  chomp (name ++ String carriage_return (String newline EmptyString)) = name.
Proof.
  unfold chomp, char_is. rewrite string_length_app. cbn [String.length].
  replace (String.length name + 2 - 1) with (String.length name + 1) by lia.
  replace (String.length name + 2 - 2) with (String.length name + 0) at 1 by lia.
  rewrite !string_get_app_right. cbn [String.get].
  replace (Nat.leb 1 (String.length name + 2)) with true
    by (symmetry; apply Nat.leb_le; lia).
  replace (Nat.leb 2 (String.length name + 2)) with true
    by (symmetry; apply Nat.leb_le; lia).
  cbn [andb Ascii.eqb]. rewrite !Ascii.eqb_refl. cbn [andb].
  replace (String.length name + 2 - 2) with (String.length name) by lia.
  apply substring_prefix.
Qed.

Lemma chomp_lf (name : string) :
  ends_with carriage_return name = false ->
  chomp (name ++ String newline EmptyString) = name.
Proof.
  intros Hcr. unfold chomp. rewrite string_length_app. cbn [String.length].
  replace (String.length name + 1 - 1) with (String.length name) by lia.
  replace (Nat.leb 1 (String.length name + 1)) with true
    by (symmetry; apply Nat.leb_le; lia).
  assert (Hnl : char_is (String.length name)
                  (name ++ String newline EmptyString) newline = true).
  { unfold char_is.
    rewrite <- (Nat.add_0_r (String.length name)) at 1.
    rewrite string_get_app_right. reflexivity. }
  rewrite Hnl. cbn [andb].
  assert (Hno : Nat.leb 2 (String.length name + 1)
                && char_is (String.length name + 1 - 2)
                     (name ++ String newline EmptyString) carriage_return
                = false).
  { destruct name as [|x name']; [reflexivity|].
    apply andb_false_iff. right.
    rewrite <- Hcr, <- char_is_last. unfold char_is.
    replace (String.length (String x name') + 1 - 2)
      with (String.length (String x name') - 1) by lia.
    rewrite string_get_app_left by (cbn; lia). reflexivity. }
  rewrite Hno. apply substring_prefix.
Qed.

Lemma chomp_unterminated (s : string) :
  ends_with newline s = false -> chomp s = s.
Proof.
  intros H. unfold chomp. rewrite char_is_last, H, andb_false_r. reflexivity.
Qed.

(** X11. What [listFile] cuts off a line of the listing: a name followed by
    "\r\n" loses both characters; a name followed by "\n" loses it (and
    nothing else, unless the name itself ends with "\r"); a chunk that does
    not end with "\n" is kept as it is. *)
Theorem chomp_cuts_the_terminator :
  (forall name,
      chomp (name ++ String carriage_return (String newline EmptyString)) = name)
  /\ (forall name,
        ends_with carriage_return name = false ->
        chomp (name ++ String newline EmptyString) = name)
  /\ (forall s, ends_with newline s = false -> chomp s = s).
Proof.
  split; [exact chomp_crlf | split; [exact chomp_lf | exact chomp_unterminated]].
Qed.

Lemma chomp_cuts_the_terminator_witness :
  chomp ("massif.out.1" ++ String newline EmptyString) = "massif.out.1"%string
  /\ chomp "massif.out.1" = "massif.out.1"%string.
Proof.
  split.
  - apply (proj1 (proj2 chomp_cuts_the_terminator) "massif.out.1"%string).
    reflexivity.
  - apply (proj2 (proj2 chomp_cuts_the_terminator) "massif.out.1"%string).
    reflexivity.
Defined.

Lemma listFile_loop_exist (fs : FileSystem) (chunks : list string) :
  forall files,
    Forall (fun p => fileExists fs p = true) files ->
    Forall (fun p => fileExists fs p = true) (listFile_loop fs chunks files).
Proof.
  induction chunks as [|buffer rest IH]; intros files H; cbn [listFile_loop];
    [exact H|].
  apply IH. destruct (fileExists fs (chomp buffer)) eqn:E; [|exact H].
  apply Forall_app; split; [exact H|]. constructor; [exact E | constructor].
Qed.

Lemma add_operand_exist (sh : Shell) (fs : FileSystem) (args : InputArgs)
    (operand : string) :
  Forall (fun p => fileExists fs p = true) (inputFiles args) ->
  Forall (fun p => fileExists fs p = true)
    (inputFiles (add_operand sh fs args operand)).
Proof.
  intros H. unfold add_operand.
  destruct (fileExists fs operand) eqn:E; cbn [inputFiles].
  - apply Forall_app; split; [exact H|]. constructor; [exact E | constructor].
  - unfold listFile. destruct (sh (ls_command operand)) as [chunks|];
      cbn -[Nat.ltb]; [|exact H].
    destruct (Nat.ltb 0 (List.length (listFile_loop fs chunks [])));
      cbn [inputFiles]; [|exact H].
    apply Forall_app; split; [exact H|].
    apply listFile_loop_exist. constructor.
Qed.

Lemma add_operand_options (sh : Shell) (fs : FileSystem) (args : InputArgs)
    (operand : string) :
  deleteSuccess (add_operand sh fs args operand) = deleteSuccess args
  /\ verbose (add_operand sh fs args operand) = verbose args
  /\ outputFile (add_operand sh fs args operand) = outputFile args.
Proof.
  unfold add_operand. destruct (fileExists fs operand); [repeat split|].
  destruct (listFile sh fs [] operand) as [r files].
  destruct ((r =? 0)%Z && Nat.ltb 0 (List.length files)); repeat split.
Qed.

Lemma fold_add_operand (sh : Shell) (fs : FileSystem) (ops : list string) :
  forall args,
    Forall (fun p => fileExists fs p = true) (inputFiles args) ->
    Forall (fun p => fileExists fs p = true)
      (inputFiles (fold_left (add_operand sh fs) ops args))
    /\ deleteSuccess (fold_left (add_operand sh fs) ops args)
       = deleteSuccess args
    /\ verbose (fold_left (add_operand sh fs) ops args) = verbose args
    /\ outputFile (fold_left (add_operand sh fs) ops args) = outputFile args.
Proof.
  induction ops as [|op ops IH]; intros args H; cbn [fold_left].
  - repeat split; auto.
  - destruct (IH _ (add_operand_exist sh fs args op H)) as (H1 & H2 & H3 & H4).
    destruct (add_operand_options sh fs args op) as (E2 & E3 & E4).
    rewrite H2, H3, H4, E2, E3, E4. repeat split; auto.
Qed.

Lemma last_nonempty {A : Type} (x : A) (l : list A) (d d' : A) :
  last (x :: l) d = last (x :: l) d'.
Proof.
  revert x; induction l as [|y l IH]; intros x; [reflexivity|].
  change (last (y :: l) d = last (y :: l) d'). apply IH.
Qed.

(** The fields after the loop over the options [getopt] delivered. *)
Lemma fold_set_option (opts : list (ascii * string)) :
  forall args,
    deleteSuccess (fold_left set_option opts args)
    = deleteSuccess args
      || existsb (fun o => Ascii.eqb (fst o) "d") opts
    /\ verbose (fold_left set_option opts args)
       = verbose args || existsb (fun o => Ascii.eqb (fst o) "v") opts
    /\ outputFile (fold_left set_option opts args)
       = last (map snd (filter (fun o => Ascii.eqb (fst o) "o") opts))
           (outputFile args)
    /\ inputFiles (fold_left set_option opts args) = inputFiles args.
Proof.
  induction opts as [|[c a] opts IH]; intros args; cbn [fold_left].
  - cbn. rewrite !orb_false_r. repeat split.
  - destruct (IH (set_option args (c, a))) as (H1 & H2 & H3 & H4).
    rewrite H1, H2, H3, H4. clear IH H1 H2 H3 H4.
    unfold set_option. cbn [fst snd existsb filter map].
    destruct (Ascii.eqb_spec c "d") as [->|Hd];
      [cbn; rewrite orb_true_r; repeat split|].
    destruct (Ascii.eqb_spec c "v") as [->|Hv];
      [cbn; rewrite orb_true_r; repeat split|].
    destruct (Ascii.eqb_spec c "o") as [->|Ho].
    + cbn [deleteSuccess verbose outputFile inputFiles orb map].
      repeat split.
      destruct (map snd (filter (fun o => Ascii.eqb (fst o) "o") opts))
        as [|x l]; [reflexivity|].
      cbn [snd]. change (last (a :: x :: l) (outputFile args))
        with (last (x :: l) (outputFile args)).
      apply last_nonempty.
    + assert (E : match c with
                  | "v"%char =>
                      mkInputArgs (deleteSuccess args) true (outputFile args)
                        (inputFiles args)
                  | "o"%char =>
                      mkInputArgs (deleteSuccess args) (verbose args) a
                        (inputFiles args)
                  | "d"%char =>
                      mkInputArgs true (verbose args) (outputFile args)
                        (inputFiles args)
                  | _ => args
                  end = args).
      { destruct c as [[] [] [] [] [] [] [] []]; try reflexivity;
          exfalso; auto. }
      rewrite E. cbn [orb]. repeat split.
Qed.

(** X12. [InputArgs::parse], from the defaults: the output path is the
    argument of the last [-o] option, and [massif.out.combine] when there is
    none; [-d] and [-v] are set once they occur; any other option character
    changes nothing; and every input path it keeps, literal operand or name
    from a listing, is one [stat] found. *)
Theorem parse_keeps_existing_files (sh : Shell) (fs : FileSystem) (g : Getopt) :
  Forall (fun p => fileExists fs p = true)
    (inputFiles (parse sh fs g default_args))
  /\ outputFile (parse sh fs g default_args)
     = last (map snd (filter (fun o => Ascii.eqb (fst o) "o") (options g)))
         DEFAULT_OUTPUTNAME
  /\ deleteSuccess (parse sh fs g default_args)
     = existsb (fun o => Ascii.eqb (fst o) "d") (options g)
  /\ verbose (parse sh fs g default_args)
     = existsb (fun o => Ascii.eqb (fst o) "v") (options g).
Proof.
  unfold parse.
  destruct (fold_set_option (options g) default_args) as (H1 & H2 & H3 & H4).
  destruct (fold_add_operand sh fs (operands g)
              (fold_left set_option (options g) default_args))
    as (F1 & F2 & F3 & F4).
  { rewrite H4. constructor. }
  rewrite F2, F3, F4, H1, H2, H3.
  split; [exact F1 | repeat split].
Qed.

Lemma fold_add_operand_existing (sh : Shell) (fs : FileSystem)
    (ops : list string) :
  Forall (fun op => fileExists fs op = true) ops ->
  forall args,
    inputFiles (fold_left (add_operand sh fs) ops args)
    = inputFiles args ++ ops.
Proof.
  induction 1 as [|op ops Hop _ IH]; intros args; cbn [fold_left].
  - rewrite app_nil_r. reflexivity.
  - rewrite IH. unfold add_operand. rewrite Hop. cbn [inputFiles].
    rewrite <- app_assoc. reflexivity.
Qed.

Lemma parse_existing_operands (sh : Shell) (fs : FileSystem) (g : Getopt) :
  Forall (fun op => fileExists fs op = true) (operands g) ->
  inputFiles (parse sh fs g default_args) = operands g.
Proof.
  intros H. unfold parse.
  rewrite (fold_add_operand_existing sh fs (operands g) H).
  destruct (fold_set_option (options g) default_args) as (_ & _ & _ & ->).
  reflexivity.
Qed.

(** X14. A run with [-d] whose operands all exist (so that no listing is
    asked of the shell) and parse into a document that is not empty, on a
    destination where nothing fails; removing a path takes away every name
    that resolves through its directory entry.  Then [main] ends with 0, the
    input files are the operands, every input path the system lets go is
    absent afterwards, and the output path holds the serialized document
    when it resolves through none of the inputs; when it resolves through an
    input the system lets go (the output path is one of the inputs, under
    the same spelling or another), the output just written is removed with
    the inputs. *)
Theorem main_with_delete {S : StdSort} (argc : nat) (g : Getopt) (sh : Shell)
    (kills : string -> string -> bool) (locked : string -> bool)
    (fs : FileSystem) (m : MassifFile) :
  (forall p, kills p p = true) ->
  (forall a b c, kills a b = true -> kills b c = true -> kills a c = true) ->
  1 < argc ->
  Forall (fun op => fileExists fs op = true) (operands g) ->
  deleteSuccess (parse sh fs g default_args) = true ->
  main_loop fs (operands g) empty_file = Some m ->
  ~ is_empty m ->
  exists fs',
    main argc g sh kills locked sound_sink fs = (Returned 0, fs')
    /\ inputFiles (parse sh fs g default_args) = operands g
    /\ (forall p, In p (operands g) -> locked p = false -> fs' p = None)
    /\ (forall p,
          In p (operands g) -> locked p = false ->
          kills p (outputFile (parse sh fs g default_args)) = true ->
          fs' (outputFile (parse sh fs g default_args)) = None)
    /\ ((forall p,
            In p (operands g) ->
            kills p (outputFile (parse sh fs g default_args)) = false) ->
        fs' (outputFile (parse sh fs g default_args))
        = Some (unlines (output_lines (headers m) (std_sort (snapshots m))))).
Proof.
  intros Hrefl Htrans Hargc Hops Hd Hm Hne. unfold main.
  pose proof (parse_existing_operands sh fs g Hops) as Hin.
  set (args := parse sh fs g default_args) in *.
  replace (Nat.leb argc 1) with false by (symmetry; apply Nat.leb_gt; exact Hargc).
  rewrite Hin, Hm, (write_sound_sink (outputFile args) m fs Hne), Hd.
  cbn [Z.eqb andb].
  set (text := unlines (output_lines (headers m) (std_sort (snapshots m)))).
  destruct (deleteFiles kills locked (store fs (outputFile args) text)
              (operands g)) as [ok fs2] eqn:D.
  destruct (deleteFiles_loop_spec kills locked Hrefl Htrans _ _ _ _ _ D)
    as (Ha & Ha' & Hb & _).
  exists fs2. cbn [snd].
  split; [reflexivity | split; [reflexivity | split; [exact Ha | split]]].
  - intros p Hp Hl Hk. apply (Ha' p _ Hp Hl); [|exact Hk].
    unfold fileExists, store.
    destruct (String.eqb p (outputFile args)); [reflexivity|].
    rewrite Forall_forall in Hops. exact (Hops p Hp).
  - intros Hnk. rewrite (Hb _ Hnk). apply store_same.
Qed.

(** [-d -o ./A A B], where "./A" names the file "A": the inputs are gone,
    and so is the output. *)
Lemma main_with_delete_witness :
  exists fs',
    main 6 (mkGetopt [("d"%char, EmptyString); ("o"%char, "./A"%string)]
              ["A"; "B"]%string)
      (fun _ => None) same_entry (fun _ => false) sound_sink files_dot_A
    = (Returned 0, fs')
    /\ fs' "A"%string = None /\ fs' "B"%string = None
    /\ fs' "./A"%string = None.
Proof.
  destruct (main_with_delete 6
              (mkGetopt [("d"%char, EmptyString); ("o"%char, "./A"%string)]
                 ["A"; "B"]%string)
              (fun _ => None) same_entry (fun _ => false) files_dot_A
              (mkMassifFile ["desc: x"%string] [snapshot_A; snapshot_B])
              same_entry_refl same_entry_trans)
    as (fs' & Hmain & _ & Ha & Hk & _).
  - lia.
  - repeat constructor.
  - reflexivity.
  - reflexivity.
  - intros [H _]. discriminate H.
  - exists fs'. split; [exact Hmain|].
    split; [apply Ha; [left; reflexivity | reflexivity]|].
    split; [apply Ha; [right; left; reflexivity | reflexivity]|].
    apply (Hk "A"%string); [left; reflexivity | reflexivity | reflexivity].
Defined.

(* ================================================================== *)
(** * The order of the sources *)

Lemma Permutation_flat_map_list {A B : Type} (f : A -> list B) (l l' : list A) :
  Permutation l l' -> Permutation (flat_map f l) (flat_map f l').
Proof.
  induction 1 as [|x l l' _ IH|x y l|l l1 l2 _ IH1 _ IH2]; cbn [flat_map].
  - constructor.
  - apply Permutation_app_head, IH.
  - rewrite !app_assoc. apply Permutation_app_tail, Permutation_app_comm.
  - eapply perm_trans; eassumption.
Qed.

Lemma sorted_keys_unique (l l' : list Z) :
  Permutation l l' ->
  StronglySorted Z.le l -> StronglySorted Z.le l' -> l = l'.
Proof.
  revert l'; induction l as [|a l IH]; intros l' Hp Hs Hs'.
  - apply Permutation_nil in Hp. symmetry. exact Hp.
  - destruct l' as [|b l'];
      [apply Permutation_sym, Permutation_nil in Hp; discriminate Hp|].
    inversion Hs as [|? ? Hs1 Ha]; subst.
    inversion Hs' as [|? ? Hs1' Hb]; subst.
    rewrite Forall_forall in Ha, Hb.
    assert (Hab : (a <= b)%Z).
    { assert (Hin : In b (a :: l))
        by (eapply Permutation_in; [apply Permutation_sym, Hp | left; reflexivity]).
      destruct Hin as [->|Hin]; [lia | exact (Ha b Hin)]. }
    assert (Hba : (b <= a)%Z).
    { assert (Hin : In a (b :: l'))
        by (eapply Permutation_in; [exact Hp | left; reflexivity]).
      destruct Hin as [->|Hin]; [lia | exact (Hb a Hin)]. }
    assert (a = b) by lia. subst b.
    f_equal. apply IH; [eapply Permutation_cons_inv; exact Hp | assumption | assumption].
Qed.

Lemma StronglySorted_map_time (l : list Snapshot) :
  StronglySorted time_le l -> StronglySorted Z.le (map time l).
Proof.
  induction 1 as [|s l _ IH Hs]; cbn [map]; constructor; [exact IH|].
  rewrite Forall_map. exact Hs.
Qed.

(** X15. The order in which the sources are given decides the headers only.
    Two combines of the same sources in different orders, when both return,
    hold the same snapshots up to their order, and after the sort of
    [write] the same sequence of keys. *)
Theorem source_order_is_irrelevant_to_snapshots {S : StdSort}
    (fs : FileSystem) (paths paths' : list string) (r r' : Z)
    (m m' : MassifFile) :
  Permutation paths paths' ->
  add_range fs paths empty_file = (Returned r, m) ->
  add_range fs paths' empty_file = (Returned r', m') ->
  Permutation (snapshots m) (snapshots m')
  /\ map time (std_sort (snapshots m)) = map time (std_sort (snapshots m')).
Proof.
  intros Hp H1 H2. unfold add_range in H1, H2.
  apply add_loop_snapshots in H1. apply add_loop_snapshots in H2.
  cbn [empty_file snapshots app] in H1, H2.
  assert (Hperm : Permutation (snapshots m) (snapshots m')).
  { rewrite H1, H2. apply Permutation_flat_map_list, Hp. }
  split; [exact Hperm|].
  apply sorted_keys_unique.
  - apply Permutation_map.
    eapply perm_trans; [apply Permutation_sym, std_sort_permutation|].
    eapply perm_trans; [exact Hperm | apply std_sort_permutation].
  - apply StronglySorted_map_time, std_sort_sorted.
  - apply StronglySorted_map_time, std_sort_sorted.
Qed.

Lemma source_order_is_irrelevant_to_snapshots_witness :
  Permutation
    (snapshots (mkMassifFile ["desc: x"%string] [snapshot_A; snapshot_B]))
    (snapshots (mkMassifFile ["cmd: y"%string] [snapshot_B; snapshot_A]))
  /\ map time
       (std_sort
          (snapshots (mkMassifFile ["desc: x"%string] [snapshot_A; snapshot_B])))
     = map time
         (std_sort
            (snapshots (mkMassifFile ["cmd: y"%string] [snapshot_B; snapshot_A]))).
Proof.
  apply (source_order_is_irrelevant_to_snapshots files_A_B_headed
           ["A"; "B"]%string ["B"; "A"]%string 0%Z 0%Z
           (mkMassifFile ["desc: x"%string] [snapshot_A; snapshot_B])
           (mkMassifFile ["cmd: y"%string] [snapshot_B; snapshot_A])).
  - apply perm_swap.
  - reflexivity.
  - reflexivity.
Defined.
